(** * tapify: running a callable from command-line arguments

    A shallow embedding of [src/tap/tapify.py].  The single function of the
    module, [tapify], reads the signature and the docstring of a class or a
    function, registers one command-line argument per parameter on a [Tap]
    object, lets that object parse the command line and finally calls the
    class or function with the parsed values.

    Python dictionaries are finite maps with string keys ([gmap string _]);
    no property below reads the insertion order of a dictionary.  Exceptions
    are the left summand of a sum type, threaded by a small error monad. *)

From stdpp Require Import gmap strings list fin_maps.

Open Scope string_scope.

(** ** Python values and types *)

(** The objects that flow through [tapify] as defaults, overrides and parsed
    values.  [PyObj n] stands for any other object, identified by [n]. *)
Inductive pyobj :=
  | PyNone
  | PyBool (b : bool)
  | PyInt (z : Z)
  | PyStr (s : string)
  | PyObj (n : nat).

#[global] Instance pyobj_eq_dec : EqDecision pyobj.
Proof. solve_decision. Defined.

(** A type annotation: [typing.Any], or a class known by its name. *)
Inductive pytype :=
  | Any
  | Cls (qualname : string).

#[global] Instance pytype_eq_dec : EqDecision pytype.
Proof. solve_decision. Defined.

(** The builtin [str]. *)
Definition str : pytype := Cls "str".

(** ** inspect.Parameter *)

Inductive kind_t :=
  | POSITIONAL_ONLY
  | POSITIONAL_OR_KEYWORD
  | VAR_POSITIONAL
  | KEYWORD_ONLY
  | VAR_KEYWORD.

#[global] Instance kind_eq_dec : EqDecision kind_t.
Proof. solve_decision. Defined.

(** One formal parameter.  [None] in [annotation] or [default] is the
    sentinel [inspect.Parameter.empty]. *)
Module Param.

Record t := mk {
  name : string;
  kind : kind_t;
  annotation : option pytype;
  default : option pyobj
}.

End Param.

#[global] Instance param_eq_dec : EqDecision Param.t.
Proof. solve_decision. Defined.

(** ** The target of [tapify] *)

(** A class or a function, with what [tapify] reads from it: whether it is
    a class ([isinstance(class_or_function, type)]), the documentation of
    its [__init__] attribute, its own [__doc__], the parameters of its
    signature in declaration order, and the call with keyword arguments. *)
Record Callable (R : Type) := {
  is_type : bool;
  init_doc : option string;
  own_doc : option string;
  parameters : list Param.t;
  invoke : gmap string pyobj → R
}.
Arguments is_type {R} _.
Arguments init_doc {R} _.
Arguments own_doc {R} _.
Arguments parameters {R} _.
Arguments invoke {R} _ _.

(** ** docstring_parser *)

Record DocstringParam := {
  arg_name : string;
  description : option string
}.

Record Docstring := {
  short_description : option string;
  long_description : option string;
  params : list DocstringParam
}.

Definition empty_docstring : Docstring :=
  {| short_description := None; long_description := None; params := [] |}.

(** ** Strings *)

(** [s.lstrip(chars)]: drop the leading characters of [s] that occur in
    [chars]. *)
Fixpoint occurs (c : Ascii.ascii) (chars : string) : bool :=
  match chars with
  | EmptyString => false
  | String d rest => if decide (c = d) then true else occurs c rest
  end.

Fixpoint lstrip (chars : string) (s : string) : string :=
  match s with
  | EmptyString => EmptyString
  | String c rest => if occurs c chars then lstrip chars rest else s
  end.

(** The one-character string of a line feed. *)
Definition newline : string := String (Ascii.ascii_of_nat 10) "".

(** [sep.join(parts)]. *)
Fixpoint join (sep : string) (parts : list string) : string :=
  match parts with
  | [] => ""
  | [p] => p
  | p :: rest => p +:+ sep +:+ join sep rest
  end.

(** [filter(None, items)] on optional strings: [None] and the empty string
    are falsy and dropped. *)
Fixpoint filter_truthy (items : list (option string)) : list string :=
  match items with
  | [] => []
  | None :: rest => filter_truthy rest
  | Some s :: rest =>
      if decide (s = "") then filter_truthy rest else s :: filter_truthy rest
  end.

(** ** The Tap object *)

(** Modelled from the spec: the class [Tap] of [tap/tap.py] is not part of
    the source at hand.  The record keeps what [tapify] writes to a [Tap]
    object: the two dictionaries [_annotations] and [class_variables] it
    assigns into, and the calls of [_add_argument] in the order they were
    made, each with its flag and its keyword arguments.  Together they are
    the argument schema: one ArgumentSpec per registered flag, with the type
    from [_annotations], [required] and [default] from the keyword
    arguments and the help text from [class_variables]. *)
Record Tap := {
  tap_description : string;
  tap_explicit_bool : bool;
  _annotations : gmap string pytype;
  class_variables : gmap string (gmap string pyobj);
  added_arguments : list (string * gmap string pyobj)
}.

(** Modelled from the spec: [Tap(description=..., explicit_bool=...)], a
    parser with an empty schema. *)
Definition Tap_new (descr : string) (explicit_bool : bool) : Tap :=
  {| tap_description := descr;
     tap_explicit_bool := explicit_bool;
     _annotations := ∅;
     class_variables := ∅;
     added_arguments := [] |}.

(** [tap._annotations[name] = ty] *)
Definition set_annotation (name : string) (ty : pytype) (tap : Tap) : Tap :=
  {| tap_description := tap_description tap;
     tap_explicit_bool := tap_explicit_bool tap;
     _annotations := <[name := ty]> (_annotations tap);
     class_variables := class_variables tap;
     added_arguments := added_arguments tap |}.

(** [tap.class_variables[name] = d] *)
Definition set_class_variable (name : string) (d : gmap string pyobj)
    (tap : Tap) : Tap :=
  {| tap_description := tap_description tap;
     tap_explicit_bool := tap_explicit_bool tap;
     _annotations := _annotations tap;
     class_variables := <[name := d]> (class_variables tap);
     added_arguments := added_arguments tap |}.

(** Modelled from the spec: [tap._add_argument(flag, **kwargs)] registers
    the argument under its flag. *)
Definition _add_argument (flag : string) (kwargs : gmap string pyobj)
    (tap : Tap) : Tap :=
  {| tap_description := tap_description tap;
     tap_explicit_bool := tap_explicit_bool tap;
     _annotations := _annotations tap;
     class_variables := class_variables tap;
     added_arguments := added_arguments tap ++ [(flag, kwargs)] |}.

(** What [tap.parse_args] leaves behind: the parsed values ([as_dict()])
    and the tokens it did not recognise ([tap.extra_args]). *)
Record Parsed := {
  as_dict : gmap string pyobj;
  extra_args : list string
}.

(** ** Exceptions *)

(** The exceptions [tapify] can end with before it calls its target:
    the [ValueError] it raises itself, with the dictionary shown in its
    message; the [IndexError] of a list index out of range; an exception
    [e] of the parser. *)
Inductive exn (E : Type) :=
  | ValueError (unknown : gmap string pyobj)
  | IndexError
  | ParserError (e : E).
Arguments ValueError {E} _.
Arguments IndexError {E}.
Arguments ParserError {E} _.

Definition bind_exn {X A B : Type} (m : X + A) (k : A → X + B) : X + B :=
  match m with
  | inl e => inl e
  | inr a => k a
  end.

Notation "'do' x <- m ; k" := (bind_exn m (fun x => k))
  (at level 10, x name, m at level 100, k at level 200).

(** ** The loop over the parameters *)

(** The variables the loop of [tapify] reads and writes. *)
Record loop_state := {
  tap : Tap;
  has_kwargs : bool;
  known_only : bool;
  func_kwargs : gmap string pyobj
}.

(** The type recorded for an annotation: [str] for [Any], the annotation
    itself otherwise. *)
Definition annotate (p : Param.t) (t : Tap) : Tap :=
  match Param.annotation p with
  | None => t
  | Some Any => set_annotation (Param.name p) str t
  | Some ty => set_annotation (Param.name p) ty t
  end.

(** The keyword arguments for [_add_argument] and the overrides that are
    left: an override is used and deleted, else the declared default, else
    the argument is required. *)
Definition default_or_required (p : Param.t) (fk : gmap string pyobj)
    : gmap string pyobj * gmap string pyobj :=
  match fk !! Param.name p with
  | Some o => ({[ "default" := o ]}, delete (Param.name p) fk)
  | None =>
      match Param.default p with
      | Some d => ({[ "default" := d ]}, fk)
      | None => ({[ "required" := PyBool true ]}, fk)
      end
  end.

(** The help string of the argument. *)
Definition attach_help (param_to_description : gmap string (option string))
    (p : Param.t) (t : Tap) : Tap :=
  match param_to_description !! Param.name p with
  | Some c =>
      set_class_variable (Param.name p)
        {[ "comment" := match c with Some s => PyStr s | None => PyNone end ]} t
  | None => t
  end.

(** One iteration of [for param_name, param in sig.parameters.items()]. *)
Definition process_param (param_to_description : gmap string (option string))
    (st : loop_state) (p : Param.t) : loop_state :=
  if decide (Param.kind p = VAR_KEYWORD) then
    {| tap := tap st; has_kwargs := true; known_only := true;
       func_kwargs := func_kwargs st |}
  else
    let t1 := annotate p (tap st) in
    let '(tap_kwargs, fk) := default_or_required p (func_kwargs st) in
    let t2 := attach_help param_to_description p t1 in
    {| tap := _add_argument ("--" +:+ Param.name p) tap_kwargs t2;
       has_kwargs := has_kwargs st;
       known_only := known_only st;
       func_kwargs := fk |}.

Definition process_params (param_to_description : gmap string (option string))
    (st : loop_state) (ps : list Param.t) : loop_state :=
  foldl (process_param param_to_description) st ps.

(** ** Extra command line arguments *)

(** [range(0, n, 2)] *)
Definition range_by_two (n : nat) : list nat :=
  (λ k, 2 * k) <$> seq 0 (Nat.div2 (S n)).

(** The dictionary comprehension
    [{extra[i].lstrip("-"): extra[i + 1] for i in range(0, len(extra), 2)}]:
    an index out of range raises [IndexError], a key met again is
    reassigned. *)
Fixpoint comprehension {E : Type} (extra : list string) (indices : list nat)
    (acc : gmap string pyobj) : exn E + gmap string pyobj :=
  match indices with
  | [] => inr acc
  | i :: rest =>
      match extra !! i, extra !! (i + 1) with
      | Some flag, Some value =>
          comprehension extra rest (<[lstrip "-" flag := PyStr value]> acc)
      | _, _ => inl IndexError
      end
  end.

Definition extra_kwargs {E : Type} (extra : list string)
    : exn E + gmap string pyobj :=
  comprehension extra (range_by_two (length extra)) ∅.

(** ** tapify *)

(** The documentation text that is parsed. *)
Definition select_doc {R : Type} (class_or_function : Callable R)
    : option string :=
  if is_type class_or_function && bool_decide (init_doc class_or_function ≠ None)
  then init_doc class_or_function
  else own_doc class_or_function.

(** [{param.arg_name: param.description for param in docstring.params}] *)
Definition param_descriptions (docstring : Docstring)
    : gmap string (option string) :=
  foldl (λ acc prm, <[arg_name prm := description prm]> acc) ∅
        (params docstring).

Definition describe (docstring : Docstring) : string :=
  join newline
    (filter_truthy [short_description docstring; long_description docstring]).

Section Tapify.

(** The collaborators that are not part of the source: [parse] of
    [docstring_parser], and [Tap.parse_args] followed by reading
    [as_dict()] and [extra_args], which returns or raises an exception of
    the type [E]. *)
Context {E R : Type}.
Variable parse : option string → Docstring.
Variable parse_args : Tap → option (list string) → bool → E + Parsed.

(** The state of the loop when it starts. *)
Definition initial_state (class_or_function : Callable R) (known_only0 : bool)
    (explicit_bool : bool) (func_kwargs0 : gmap string pyobj) : loop_state :=
  let docstring := parse (select_doc class_or_function) in
  {| tap := Tap_new (describe docstring) explicit_bool;
     has_kwargs := false;
     known_only := known_only0;
     func_kwargs := func_kwargs0 |}.

(** The state of the loop when it ends: the schema is [tap]. *)
Definition build_schema (class_or_function : Callable R) (known_only0 : bool)
    (explicit_bool : bool) (func_kwargs0 : gmap string pyobj) : loop_state :=
  let docstring := parse (select_doc class_or_function) in
  process_params (param_descriptions docstring)
    (initial_state class_or_function known_only0 explicit_bool func_kwargs0)
    (parameters class_or_function).

(** [command_line_args_dict.update(kwargs)] when [**kwargs] was met. *)
Definition merge_extra (has_kw : bool) (parsed : Parsed)
    : exn E + gmap string pyobj :=
  if has_kw then
    do kwargs <- extra_kwargs (extra_args parsed);
    inr (kwargs ∪ as_dict parsed)
  else inr (as_dict parsed).

(** [tapify] up to the call: the keyword arguments of the final call, or
    the exception raised before it. *)
Definition tapify_kwargs (class_or_function : Callable R) (known_only0 : bool)
    (command_line_args : option (list string)) (explicit_bool : bool)
    (func_kwargs0 : gmap string pyobj) : exn E + gmap string pyobj :=
  let st := build_schema class_or_function known_only0 explicit_bool
              func_kwargs0 in
  if bool_decide (func_kwargs st ≠ ∅) && negb (known_only st) then
    inl (ValueError (func_kwargs st))
  else
    do parsed <- match parse_args (tap st) command_line_args (known_only st) with
                 | inl e => inl (ParserError e)
                 | inr parsed => inr parsed
                 end;
    merge_extra (has_kwargs st) parsed.

(** [tapify]: the value of the call, or the exception raised before it. *)
Definition tapify (class_or_function : Callable R) (known_only0 : bool)
    (command_line_args : option (list string)) (explicit_bool : bool)
    (func_kwargs0 : gmap string pyobj) : exn E + R :=
  do kwargs <- tapify_kwargs class_or_function known_only0 command_line_args
                 explicit_bool func_kwargs0;
  inr (invoke class_or_function kwargs).

End Tapify.

(** ** A parser for the examples *)

Inductive parser_exn :=
  | MissingRequired (flag : string)
  | ExpectedOneArgument (flag : string)
  | UnrecognizedArguments (tokens : list string).

(** Modelled from the spec: the parser behind [Tap.parse_args] is not part
    of the source at hand.  [scan] reads the tokens from left to right: a
    registered flag takes the token after it as its value, any other token
    is left over. *)
Fixpoint scan (flags : list string) (tokens : list string)
    (named : gmap string pyobj) (extras : list string)
    : parser_exn + (gmap string pyobj * list string) :=
  match tokens with
  | [] => inr (named, extras)
  | t :: rest =>
      if decide (t ∈ flags) then
        match rest with
        | [] => inl (ExpectedOneArgument t)
        | v :: rest' =>
            scan flags rest' (<[lstrip "-" t := PyStr v]> named) extras
        end
      else scan flags rest named (extras ++ [t])
  end.

(** Modelled from the spec: the arguments that got no value take their
    default; a required one that got none is an error. *)
Fixpoint fill_defaults (arguments : list (string * gmap string pyobj))
    (named : gmap string pyobj) : parser_exn + gmap string pyobj :=
  match arguments with
  | [] => inr named
  | (flag, kwargs) :: rest =>
      match named !! lstrip "-" flag, kwargs !! "default" with
      | Some _, _ => fill_defaults rest named
      | None, Some d => fill_defaults rest (<[lstrip "-" flag := d]> named)
      | None, None =>
          if decide (kwargs !! "required" = Some (PyBool true))
          then inl (MissingRequired flag)
          else fill_defaults rest (<[lstrip "-" flag := PyNone]> named)
      end
  end.

(** Modelled from the spec: the parser collaborator takes the schema and a
    leniency flag and returns the resolved values and, if lenient, the
    leftover tokens; it raises on a missing required value and, if not
    lenient, on a leftover token.  Values stay the text of their token.
    [argv] is the command line of the process, read when no tokens are
    passed. *)
Definition spec_parse_args (argv : list string) (t : Tap)
    (args : option (list string)) (lenient : bool) : parser_exn + Parsed :=
  let tokens := match args with Some l => l | None => argv end in
  do scanned <- scan (added_arguments t).*1 tokens ∅ [];
  do named <- fill_defaults (added_arguments t) scanned.1;
  if negb lenient && bool_decide (scanned.2 ≠ [])
  then inl (UnrecognizedArguments scanned.2)
  else inr {| as_dict := named; extra_args := scanned.2 |}.

(** A documentation parser for the examples: it finds no structure, only
    the text as the short description, and returns empty fields when there
    is no text. *)
Definition plain_parse (doc : option string) : Docstring :=
  {| short_description := doc; long_description := None; params := [] |}.

(** A documentation parser for the examples that also finds the
    description of a parameter [count]. *)
Definition count_parse (doc : option string) : Docstring :=
  {| short_description := doc; long_description := None;
     params := [{| arg_name := "count"; description := Some "How many." |}] |}.

(** ** Example targets *)

(** [def f(name: str, count: int = 3)], returning its keyword arguments. *)
Definition f_name_count : Callable (gmap string pyobj) :=
  {| is_type := false; init_doc := None; own_doc := None;
     parameters :=
       [Param.mk "name" POSITIONAL_OR_KEYWORD (Some str) None;
        Param.mk "count" POSITIONAL_OR_KEYWORD (Some (Cls "int"))
          (Some (PyInt 3))];
     invoke := λ kw, kw |}.

(** [def g(x, **kwargs)], returning its keyword arguments. *)
Definition g_x_kwargs : Callable (gmap string pyobj) :=
  {| is_type := false; init_doc := None; own_doc := None;
     parameters :=
       [Param.mk "x" POSITIONAL_OR_KEYWORD None None;
        Param.mk "kwargs" VAR_KEYWORD None None];
     invoke := λ kw, kw |}.

(** [class C: def __init__(self, a: Any, b=1)], documented on the
    constructor and on the class. *)
Definition class_C : Callable (gmap string pyobj) :=
  {| is_type := true;
     init_doc := Some "Make a C.";
     own_doc := Some "The class C.";
     parameters :=
       [Param.mk "a" POSITIONAL_OR_KEYWORD (Some Any) None;
        Param.mk "b" POSITIONAL_OR_KEYWORD None (Some (PyInt 1))];
     invoke := λ kw, kw |}.

(** ** Reading the schema *)

(** The names of the parameters that get an argument: all but [**kwargs]. *)
Definition declared (ps : list Param.t) : list string :=
  Param.name <$> filter (λ p, Param.kind p ≠ VAR_KEYWORD) ps.

(** The keyword arguments [name] was registered with. *)
Definition argument_spec (t : Tap) (name : string)
    : option (gmap string pyobj) :=
  (list_to_map (added_arguments t) : gmap string (gmap string pyobj))
    !! ("--" +:+ name).

(** An argument is either registered as required and without a default,
    or with a default and not as required. *)
Definition required_xor_default (kwargs : gmap string pyobj) : Prop :=
  (kwargs !! "required" = Some (PyBool true) ∧ kwargs !! "default" = None)
  ∨ (kwargs !! "required" = None ∧ is_Some (kwargs !! "default")).

(** What [tapify] reads of a parameter to resolve its type. *)
Definition typed_signature (ps : list Param.t)
    : list (string * kind_t * option pytype) :=
  (λ p, (Param.name p, Param.kind p, Param.annotation p)) <$> ps.

(** ** Reading strings *)

(** Every character of [s] occurs in [chars]. *)
Fixpoint all_in (chars : string) (s : string) : bool :=
  match s with
  | EmptyString => true
  | String c rest => occurs c chars && all_in chars rest
  end.

(** [s] is not empty and its first character occurs in [chars]. *)
Definition begins_in (chars : string) (s : string) : bool :=
  match s with
  | EmptyString => false
  | String c _ => occurs c chars
  end.

(** * Properties *)

(** Closes a decidable goal on concrete data by evaluation. *)
Ltac by_decide := apply (bool_decide_unpack _); vm_compute; exact I.

(** ** Strings and small examples *)

Example lstrip_two_dashes : lstrip "-" "--extra1" = "extra1".
Proof. reflexivity. Qed.

Example lstrip_inner_dash_kept : lstrip "-" "---a-b" = "a-b".
Proof. reflexivity. Qed.

Example join_descriptions :
  join newline (filter_truthy [Some "Short."; Some ""; None; Some "Long."])
  = "Short." +:+ newline +:+ "Long.".
Proof. reflexivity. Qed.

Lemma flag_inj (a b : string) : "--" +:+ a = "--" +:+ b → a = b.
Proof. intros H. vm_compute in H. congruence. Qed.

(** The end-to-end scenarios: [f(name, count=3)] called with
    [--name abc], without and with the override [count=10]. *)
Example scenario_default :
  tapify plain_parse (spec_parse_args []) f_name_count false
    (Some ["--name"; "abc"]) false ∅
  = inr {[ "name" := PyStr "abc"; "count" := PyInt 3 ]}.
Proof. vm_compute. reflexivity. Qed.

Example scenario_override :
  tapify plain_parse (spec_parse_args []) f_name_count false
    (Some ["--name"; "abc"]) false {[ "count" := PyInt 10 ]}
  = inr {[ "name" := PyStr "abc"; "count" := PyInt 10 ]}.
Proof. vm_compute. reflexivity. Qed.

(** ** The loop, one parameter at a time *)

Section Loop.

Variable ptd : gmap string (option string).

Lemma process_params_nil st : process_params ptd st [] = st.
Proof. reflexivity. Qed.

Lemma process_params_cons st p ps :
  process_params ptd st (p :: ps)
  = process_params ptd (process_param ptd st p) ps.
Proof. reflexivity. Qed.

Lemma process_params_app st ps qs :
  process_params ptd st (ps ++ qs)
  = process_params ptd (process_params ptd st ps) qs.
Proof. apply foldl_app. Qed.

Lemma process_param_var_keyword st p :
  Param.kind p = VAR_KEYWORD →
  process_param ptd st p
  = {| tap := tap st; has_kwargs := true; known_only := true;
       func_kwargs := func_kwargs st |}.
Proof. intros Hk. unfold process_param. by rewrite decide_True. Qed.

Lemma process_param_named st p :
  Param.kind p ≠ VAR_KEYWORD →
  process_param ptd st p
  = {| tap := _add_argument ("--" +:+ Param.name p)
                (default_or_required p (func_kwargs st)).1
                (attach_help ptd p (annotate p (tap st)));
       has_kwargs := has_kwargs st;
       known_only := known_only st;
       func_kwargs := (default_or_required p (func_kwargs st)).2 |}.
Proof.
  intros Hk. unfold process_param. rewrite decide_False by done.
  by destruct (default_or_required p (func_kwargs st)).
Qed.

(** The overrides left after one parameter. *)
Lemma default_or_required_rest p fk :
  (default_or_required p fk).2 = delete (Param.name p) fk.
Proof.
  unfold default_or_required.
  destruct (fk !! Param.name p) eqn:Hfk; [done|].
  rewrite delete_id by done. by destruct (Param.default p).
Qed.

(** The flags: both are set once [**kwargs] is met and never reset. *)
Lemma process_params_has_kwargs st ps :
  has_kwargs (process_params ptd st ps)
  = has_kwargs st || bool_decide (Exists (λ p, Param.kind p = VAR_KEYWORD) ps).
Proof.
  revert st. induction ps as [|p ps IH]; intros st.
  - rewrite process_params_nil, bool_decide_eq_false_2, orb_false_r; [done|].
    by intros ?%Exists_nil.
  - rewrite process_params_cons, IH.
    destruct (decide (Param.kind p = VAR_KEYWORD)) as [Hk|Hk].
    + rewrite process_param_var_keyword by done. cbn.
      rewrite (bool_decide_eq_true_2 (Exists _ (p :: ps))) by by left.
      by rewrite orb_true_r.
    + rewrite process_param_named by done. cbn. f_equal.
      apply bool_decide_ext. rewrite Exists_cons. tauto.
Qed.

Lemma process_params_known_only st ps :
  known_only (process_params ptd st ps)
  = known_only st || bool_decide (Exists (λ p, Param.kind p = VAR_KEYWORD) ps).
Proof.
  revert st. induction ps as [|p ps IH]; intros st.
  - rewrite process_params_nil, bool_decide_eq_false_2, orb_false_r; [done|].
    by intros ?%Exists_nil.
  - rewrite process_params_cons, IH.
    destruct (decide (Param.kind p = VAR_KEYWORD)) as [Hk|Hk].
    + rewrite process_param_var_keyword by done. cbn.
      rewrite (bool_decide_eq_true_2 (Exists _ (p :: ps))) by by left.
      by rewrite orb_true_r.
    + rewrite process_param_named by done. cbn. f_equal.
      apply bool_decide_ext. rewrite Exists_cons. tauto.
Qed.

Lemma declared_cons_var_keyword p ps :
  Param.kind p = VAR_KEYWORD → declared (p :: ps) = declared ps.
Proof. intros Hk. unfold declared. by rewrite filter_cons_False by tauto. Qed.

Lemma declared_cons_named p ps :
  Param.kind p ≠ VAR_KEYWORD →
  declared (p :: ps) = Param.name p :: declared ps.
Proof. intros Hk. unfold declared. by rewrite filter_cons_True. Qed.

Lemma declared_app ps qs : declared (ps ++ qs) = (declared ps ++ declared qs)%list.
Proof. unfold declared. by rewrite filter_app, fmap_app. Qed.

Lemma declared_subseteq ps : declared ps ⊆ Param.name <$> ps.
Proof.
  intros n. unfold declared. rewrite !list_elem_of_fmap.
  intros (p & -> & Hp). apply list_elem_of_filter in Hp as [_ Hp]. eauto.
Qed.

(** The overrides left after the loop: those of no declared parameter. *)
Lemma process_params_func_kwargs st ps k :
  func_kwargs (process_params ptd st ps) !! k
  = if decide (k ∈ declared ps) then None else func_kwargs st !! k.
Proof.
  revert st. induction ps as [|p ps IH]; intros st.
  - cbn. rewrite decide_False; [done|]. unfold declared. cbn. set_solver.
  - rewrite process_params_cons, IH.
    destruct (decide (Param.kind p = VAR_KEYWORD)) as [Hk|Hk].
    + rewrite process_param_var_keyword, declared_cons_var_keyword by done.
      done.
    + rewrite process_param_named, declared_cons_named by done. cbn.
      rewrite default_or_required_rest.
      destruct (decide (k = Param.name p)) as [->|Hne].
      * rewrite lookup_delete_eq.
        rewrite (decide_True (P := _ ∈ _ :: _)) by by left.
        by case_decide.
      * rewrite lookup_delete_ne by done.
        apply decide_ext. rewrite elem_of_cons. tauto.
Qed.

Lemma declared_NoDup ps : NoDup (Param.name <$> ps) → NoDup (declared ps).
Proof.
  intros Hnd. eapply sublist_NoDup; [exact Hnd|]. unfold declared. apply fmap_sublist, sublist_filter.
Qed.

(** The keyword arguments of a parameter depend on the overrides only
    through the entry of its own name. *)
Lemma default_or_required_agree p fk fk' :
  fk !! Param.name p = fk' !! Param.name p →
  (default_or_required p fk).1 = (default_or_required p fk').1.
Proof.
  intros Hfk. unfold default_or_required. rewrite <- Hfk.
  destruct (fk !! Param.name p); [done|]. by destruct (Param.default p).
Qed.

Lemma annotate_added_arguments p t :
  added_arguments (annotate p t) = added_arguments t.
Proof. unfold annotate. by destruct (Param.annotation p) as [[]|]. Qed.

Lemma attach_help_added_arguments p t :
  added_arguments (attach_help ptd p t) = added_arguments t.
Proof. unfold attach_help. by destruct (ptd !! Param.name p). Qed.

Lemma attach_help_annotations p t :
  _annotations (attach_help ptd p t) = _annotations t.
Proof. unfold attach_help. by destruct (ptd !! Param.name p). Qed.

(** Overrides that agree on the declared names build the same schema. *)
Lemma process_params_agree st st' ps :
  tap st = tap st' →
  (∀ n, n ∈ declared ps → func_kwargs st !! n = func_kwargs st' !! n) →
  tap (process_params ptd st ps) = tap (process_params ptd st' ps).
Proof.
  revert st st'. induction ps as [|p ps IH]; intros st st' Ht Hfk.
  - by rewrite !process_params_nil.
  - rewrite !process_params_cons.
    destruct (decide (Param.kind p = VAR_KEYWORD)) as [Hvk|Hvk].
    + rewrite !process_param_var_keyword by done.
      rewrite declared_cons_var_keyword in Hfk by done.
      apply IH; cbn; auto.
    + rewrite !process_param_named by done.
      rewrite declared_cons_named in Hfk by done.
      apply IH; cbn [tap func_kwargs].
      * rewrite Ht. f_equal. apply default_or_required_agree, Hfk. by left.
      * intros n Hn. rewrite !default_or_required_rest.
        destruct (decide (n = Param.name p)) as [->|Hne].
        -- by rewrite !lookup_delete_eq.
        -- rewrite !lookup_delete_ne by done. apply Hfk. by right.
Qed.

(** The registered arguments, in the order of the parameters. *)
Lemma process_params_added_arguments st ps :
  NoDup (declared ps) →
  added_arguments (tap (process_params ptd st ps))
  = (added_arguments (tap st) ++
     ((λ p, ("--" +:+ Param.name p,
             (default_or_required p (func_kwargs st)).1))
        <$> filter (λ p, Param.kind p ≠ VAR_KEYWORD) ps))%list.
Proof.
  revert st. induction ps as [|p ps IH]; intros st Hnd.
  - rewrite process_params_nil. cbn. by rewrite app_nil_r.
  - rewrite process_params_cons.
    destruct (decide (Param.kind p = VAR_KEYWORD)) as [Hvk|Hvk].
    + rewrite declared_cons_var_keyword in Hnd by done.
      rewrite filter_cons_False by tauto.
      by rewrite IH, process_param_var_keyword.
    + rewrite declared_cons_named in Hnd by done.
      apply NoDup_cons in Hnd as [Hp Hnd].
      rewrite filter_cons_True by done.
      rewrite IH, process_param_named by done. cbn [tap func_kwargs snd].
      unfold _add_argument at 1. cbn [added_arguments].
      rewrite attach_help_added_arguments, annotate_added_arguments.
      rewrite fmap_cons, <- app_assoc. cbn [app].
      do 2 f_equal. apply list_fmap_ext. intros i q Hq.
      f_equal. apply default_or_required_agree.
      rewrite default_or_required_rest, lookup_delete_ne; [done|].
      intros Heq. apply Hp. rewrite Heq. unfold declared.
      apply list_elem_of_fmap. exists q. split; [done|].
      by apply list_elem_of_lookup_2 in Hq.
Qed.

(** The flags of the registered arguments; distinct names are not needed
    for this. *)
Lemma process_params_flags st ps :
  (added_arguments (tap (process_params ptd st ps))).*1
  = ((added_arguments (tap st)).*1 ++
     ((λ n, "--" +:+ n) <$> declared ps))%list.
Proof.
  revert st. induction ps as [|p ps IH]; intros st.
  - rewrite process_params_nil. cbn. by rewrite app_nil_r.
  - rewrite process_params_cons, IH.
    destruct (decide (Param.kind p = VAR_KEYWORD)) as [Hvk|Hvk].
    + by rewrite declared_cons_var_keyword, process_param_var_keyword.
    + rewrite declared_cons_named, process_param_named by done. cbn.
      rewrite attach_help_added_arguments, annotate_added_arguments.
      by rewrite fmap_app, <- app_assoc.
Qed.

(** The types recorded by one iteration. *)
Lemma process_param_annotations st p :
  _annotations (tap (process_param ptd st p))
  = if decide (Param.kind p = VAR_KEYWORD) then _annotations (tap st)
    else match Param.annotation p with
         | None => _annotations (tap st)
         | Some Any => <[Param.name p := str]> (_annotations (tap st))
         | Some ty => <[Param.name p := ty]> (_annotations (tap st))
         end.
Proof.
  case_decide as Hvk.
  - by rewrite process_param_var_keyword.
  - rewrite process_param_named by done. cbn.
    rewrite attach_help_annotations. unfold annotate.
    by destruct (Param.annotation p) as [[]|].
Qed.

Lemma process_params_annotations_other st ps n :
  n ∉ declared ps →
  _annotations (tap (process_params ptd st ps)) !! n
  = _annotations (tap st) !! n.
Proof.
  revert st. induction ps as [|p ps IH]; intros st Hn; [done|].
  rewrite process_params_cons.
  destruct (decide (Param.kind p = VAR_KEYWORD)) as [Hvk|Hvk].
  - rewrite declared_cons_var_keyword in Hn by done.
    rewrite IH, process_param_annotations by done. by rewrite decide_True.
  - rewrite declared_cons_named in Hn by done.
    apply not_elem_of_cons in Hn as [Hne Hn].
    rewrite IH, process_param_annotations by done. rewrite decide_False by done.
    destruct (Param.annotation p) as [[]|]; by rewrite ?lookup_insert_ne.
Qed.

Lemma process_params_annotations st ps p :
  NoDup (declared ps) →
  p ∈ ps →
  Param.kind p ≠ VAR_KEYWORD →
  _annotations (tap (process_params ptd st ps)) !! Param.name p
  = match Param.annotation p with
    | None => _annotations (tap st) !! Param.name p
    | Some Any => Some str
    | Some ty => Some ty
    end.
Proof.
  revert st. induction ps as [|q ps IH]; intros st Hnd Hp Hvk.
  - by apply elem_of_nil in Hp.
  - rewrite process_params_cons.
    destruct (decide (Param.kind q = VAR_KEYWORD)) as [Hq|Hq].
    + rewrite declared_cons_var_keyword in Hnd by done.
      apply elem_of_cons in Hp as [->|Hp]; [done|].
      rewrite IH, process_param_annotations by done. by rewrite decide_True.
    + rewrite declared_cons_named in Hnd by done.
      apply NoDup_cons in Hnd as [Hfresh Hnd].
      apply elem_of_cons in Hp as [->|Hp].
      * rewrite process_params_annotations_other by done.
        rewrite process_param_annotations, decide_False by done.
        destruct (Param.annotation q) as [[]|]; by rewrite ?lookup_insert_eq.
      * rewrite IH, process_param_annotations by done.
        rewrite decide_False by done.
        assert (Param.name q ≠ Param.name p) as Hne.
        { intros Heq. apply Hfresh. rewrite Heq. unfold declared.
          apply list_elem_of_fmap. exists p. split; [done|].
          by apply list_elem_of_filter. }
        destruct (Param.annotation p) as [[]|]; [done..|].
        destruct (Param.annotation q) as [[]|]; by rewrite ?lookup_insert_ne.
Qed.

End Loop.

(** The types recorded depend on the names, kinds and annotations only. *)
Lemma process_params_annotations_signature ptd ptd' st st' ps ps' :
  _annotations (tap st) = _annotations (tap st') →
  typed_signature ps = typed_signature ps' →
  _annotations (tap (process_params ptd st ps))
  = _annotations (tap (process_params ptd' st' ps')).
Proof.
  revert ps' st st'. induction ps as [|p ps IH]; intros [|p' ps'] st st' Ha Hs;
    try discriminate; [done|].
  injection Hs as Hn Hk Hann Hs.
  rewrite !process_params_cons. apply IH; [|done].
  rewrite !process_param_annotations, Hn, Hk, Hann, Ha. done.
Qed.

(** ** The schema built by tapify *)

Lemma default_or_required_shape p fk :
  required_xor_default (default_or_required p fk).1.
Proof.
  unfold default_or_required, required_xor_default.
  destruct (fk !! Param.name p) as [o|]; [|destruct (Param.default p) as [d|]];
    cbn; rewrite ?lookup_singleton_eq, ?lookup_singleton_ne by done; eauto.
Qed.

Lemma process_params_shape ptd st ps :
  Forall (λ entry, required_xor_default entry.2) (added_arguments (tap st)) →
  Forall (λ entry, required_xor_default entry.2)
    (added_arguments (tap (process_params ptd st ps))).
Proof.
  revert st. induction ps as [|p ps IH]; intros st Hst; [done|].
  rewrite process_params_cons. apply IH.
  destruct (decide (Param.kind p = VAR_KEYWORD)) as [Hvk|Hvk].
  - by rewrite process_param_var_keyword.
  - rewrite process_param_named by done. cbn [tap].
    unfold _add_argument. cbn [added_arguments].
    rewrite attach_help_added_arguments, annotate_added_arguments.
    apply Forall_app. split; [done|].
    apply Forall_singleton. apply default_or_required_shape.
Qed.

(** The description of the parser is set once, and the help strings come
    from the documented parameters only. *)
Lemma process_params_description ptd st ps :
  tap_description (tap (process_params ptd st ps)) = tap_description (tap st).
Proof.
  revert st. induction ps as [|p ps IH]; intros st; [done|].
  rewrite process_params_cons, IH.
  destruct (decide (Param.kind p = VAR_KEYWORD)) as [Hvk|Hvk].
  - by rewrite process_param_var_keyword.
  - rewrite process_param_named by done. cbn. unfold attach_help, annotate.
    by destruct (ptd !! Param.name p), (Param.annotation p) as [[]|].
Qed.

Lemma process_params_no_descriptions st ps :
  class_variables (tap (process_params ∅ st ps)) = class_variables (tap st).
Proof.
  revert st. induction ps as [|p ps IH]; intros st; [done|].
  rewrite process_params_cons, IH.
  destruct (decide (Param.kind p = VAR_KEYWORD)) as [Hvk|Hvk].
  - by rewrite process_param_var_keyword.
  - rewrite process_param_named by done. cbn. unfold attach_help, annotate.
    rewrite lookup_empty. by destruct (Param.annotation p) as [[]|].
Qed.

Section Schema.

Context {R : Type}.
Variable parse : option string → Docstring.

Lemma build_schema_argument_spec (cf : Callable R) ko eb fk p :
  NoDup (Param.name <$> parameters cf) →
  p ∈ parameters cf →
  Param.kind p ≠ VAR_KEYWORD →
  argument_spec (tap (build_schema parse cf ko eb fk)) (Param.name p)
  = Some (default_or_required p fk).1.
Proof.
  intros Hnd Hp Hvk. unfold argument_spec, build_schema.
  rewrite process_params_added_arguments by by apply declared_NoDup.
  cbn [initial_state tap Tap_new added_arguments func_kwargs app].
  apply elem_of_list_to_map_1.
  - rewrite <- list_fmap_compose.
    apply NoDup_fmap_2_strong.
    + intros q q' Hq Hq' Heq. cbn in Heq. apply flag_inj in Heq.
      apply list_elem_of_filter in Hq as [_ Hq].
      apply list_elem_of_filter in Hq' as [_ Hq'].
      apply list_elem_of_lookup in Hq as [i Hi].
      apply list_elem_of_lookup in Hq' as [j Hj].
      assert (i = j) as ->.
      { eapply NoDup_lookup; [exact Hnd|..];
          rewrite list_lookup_fmap; [by rewrite Hi|by rewrite Hj, Heq]. }
      congruence.
    + apply NoDup_filter. eapply NoDup_fmap_1, Hnd.
  - apply list_elem_of_fmap. exists p. split; [done|].
    by apply list_elem_of_filter.
Qed.

(** C1: a parameter with an override [o] is registered with the default
    [o], whatever its declared default, it is not marked required, and the
    override is gone from [func_kwargs] when the loop ends; without an
    override a declared default [d] is the default; with neither, the
    parameter is registered as required and has no default. *)
Theorem override_precedence (cf : Callable R) ko eb fk p :
  NoDup (Param.name <$> parameters cf) →
  p ∈ parameters cf →
  Param.kind p ≠ VAR_KEYWORD →
  let st := build_schema parse cf ko eb fk in
  (∀ o, fk !! Param.name p = Some o →
     argument_spec (tap st) (Param.name p) = Some {[ "default" := o ]}
     ∧ func_kwargs st !! Param.name p = None)
  ∧ (∀ d, fk !! Param.name p = None → Param.default p = Some d →
       argument_spec (tap st) (Param.name p) = Some {[ "default" := d ]})
  ∧ (fk !! Param.name p = None → Param.default p = None →
       argument_spec (tap st) (Param.name p)
       = Some {[ "required" := PyBool true ]}).
Proof.
  intros Hnd Hp Hvk st. subst st.
  rewrite build_schema_argument_spec by done.
  unfold default_or_required. split_and!.
  - intros o Ho. rewrite Ho. split; [done|].
    unfold build_schema. rewrite process_params_func_kwargs.
    rewrite decide_True; [done|]. unfold declared.
    apply list_elem_of_fmap. exists p. split; [done|].
    by apply list_elem_of_filter.
  - intros d Hfk Hd. by rewrite Hfk, Hd.
  - intros Hfk Hd. by rewrite Hfk, Hd.
Qed.

(** C6: the schema has one argument per parameter other than [**kwargs],
    and every argument of the schema is either registered as required and
    without a default, or with a default and not as required. *)
Theorem schema_required_xor_default (cf : Callable R) ko eb fk :
  (added_arguments (tap (build_schema parse cf ko eb fk))).*1
  = ((λ n, "--" +:+ n) <$> declared (parameters cf))
  ∧ Forall (λ entry, required_xor_default entry.2)
      (added_arguments (tap (build_schema parse cf ko eb fk))).
Proof.
  unfold build_schema. split.
  - by rewrite process_params_flags.
  - apply process_params_shape. cbn. constructor.
Qed.

(** C7: when the parameters contain a [**kwargs] parameter, the loop ends
    with [has_kwargs] and [known_only] both true, whatever [known_only] the
    caller passed; the iteration of that parameter leaves the [Tap] object
    as it was, and the schema and the overrides left are those of the
    parameters before and after it. *)
Theorem var_keyword_skipped (cf : Callable R) ko eb fk l1 p l2 :
  parameters cf = (l1 ++ p :: l2)%list →
  Param.kind p = VAR_KEYWORD →
  let ptd := param_descriptions (parse (select_doc cf)) in
  let st0 := initial_state parse cf ko eb fk in
  let st := build_schema parse cf ko eb fk in
  has_kwargs st = true
  ∧ known_only st = true
  ∧ tap (process_param ptd (process_params ptd st0 l1) p)
    = tap (process_params ptd st0 l1)
  ∧ tap st = tap (process_params ptd st0 (l1 ++ l2))
  ∧ func_kwargs st = func_kwargs (process_params ptd st0 (l1 ++ l2)).
Proof.
  intros Hps Hvk ptd st0 st. subst st. unfold build_schema. fold ptd st0.
  rewrite Hps.
  assert (Exists (λ q, Param.kind q = VAR_KEYWORD) (l1 ++ p :: l2)) as Hex.
  { apply Exists_app. right. by left. }
  rewrite process_params_has_kwargs, process_params_known_only.
  rewrite bool_decide_eq_true_2, !orb_true_r by done.
  rewrite !process_params_app, process_params_cons.
  rewrite (process_param_var_keyword _ _ p) by done. cbn [tap].
  split_and!; try done.
  - apply process_params_agree; done.
  - apply map_eq. intros k.
    rewrite (process_params_func_kwargs _ _ l2).
    by rewrite (process_params_func_kwargs _ (process_params ptd st0 l1) l2).
Qed.

(** C8: the type recorded for a parameter is [str] when it is annotated
    with [Any], the annotation itself when it is annotated otherwise, and
    none when it is not annotated; the recorded types are the same for any
    overrides, defaults and documentation. *)
Theorem type_resolution (cf : Callable R) ko eb fk p :
  NoDup (Param.name <$> parameters cf) →
  p ∈ parameters cf →
  Param.kind p ≠ VAR_KEYWORD →
  _annotations (tap (build_schema parse cf ko eb fk)) !! Param.name p
  = match Param.annotation p with
    | None => None
    | Some Any => Some str
    | Some ty => Some ty
    end
  ∧ ∀ (parse' : option string → Docstring) (cf' : Callable R) ko' eb' fk',
      typed_signature (parameters cf') = typed_signature (parameters cf) →
      _annotations (tap (build_schema parse' cf' ko' eb' fk'))
      = _annotations (tap (build_schema parse cf ko eb fk)).
Proof.
  intros Hnd Hp Hvk. unfold build_schema. split.
  - rewrite process_params_annotations by (try apply declared_NoDup; done).
    destruct (Param.annotation p) as [[]|]; done.
  - intros parse' cf' ko' eb' fk' Hsig.
    by apply process_params_annotations_signature.
Qed.

(** C9: for a class whose constructor is documented the text parsed is
    that of the constructor, for a class whose constructor is not it is the
    text of the class, for a function it is the text of the function;
    without any text, a documentation parser that returns empty fields
    gives a parser with an empty description and no help strings. *)
Theorem documentation_source (cf : Callable R) ko eb fk :
  (∀ d, is_type cf = true → init_doc cf = Some d → select_doc cf = Some d)
  ∧ (is_type cf = true → init_doc cf = None → select_doc cf = own_doc cf)
  ∧ (is_type cf = false → select_doc cf = own_doc cf)
  ∧ (parse None = empty_docstring → select_doc cf = None →
       param_descriptions (parse (select_doc cf)) = ∅
       ∧ tap (initial_state parse cf ko eb fk) = Tap_new "" eb
       ∧ tap_description (tap (build_schema parse cf ko eb fk)) = ""
       ∧ class_variables (tap (build_schema parse cf ko eb fk)) = ∅).
Proof.
  unfold select_doc. split_and!.
  - intros d -> ->. done.
  - intros -> ->. done.
  - intros ->. done.
  - intros Hparse Hdoc. unfold build_schema, initial_state.
    unfold select_doc. rewrite Hdoc, Hparse. cbn [tap].
    rewrite process_params_description, process_params_no_descriptions.
    done.
Qed.

End Schema.

(** ** Extra command line arguments *)

Section Comprehension.

Context {E : Type}.

Lemma range_by_two_even m :
  range_by_two (2 * m) = (λ k, 2 * k) <$> seq 0 m.
Proof. unfold range_by_two. by rewrite Nat.div2_succ_double. Qed.

Lemma range_by_two_odd m :
  range_by_two (2 * m + 1) = (λ k, 2 * k) <$> seq 0 (S m).
Proof.
  unfold range_by_two. replace (S (2 * m + 1)) with (2 * S m) by lia.
  by rewrite Nat.div2_double.
Qed.

Lemma comprehension_step (extra : list string) a n acc flag value :
  extra !! (2 * a) = Some flag →
  extra !! (2 * a + 1) = Some value →
  comprehension (E:=E) extra ((λ k, 2 * k) <$> seq a (S n)) acc
  = comprehension extra ((λ k, 2 * k) <$> seq (S a) n)
      (<[lstrip "-" flag := PyStr value]> acc).
Proof.
  intros Hf Hv. cbn [seq fmap list_fmap comprehension].
  by rewrite Hf, Hv.
Qed.

Lemma pair_in_range (extra : list string) j :
  2 * j + 1 < length extra →
  ∃ flag value, extra !! (2 * j) = Some flag ∧ extra !! (2 * j + 1) = Some value.
Proof.
  intros Hlt.
  destruct (lookup_lt_is_Some_2 extra (2 * j)) as [flag Hf]; [lia|].
  destruct (lookup_lt_is_Some_2 extra (2 * j + 1)) as [value Hv]; [lia|].
  eauto.
Qed.

(** The last pair of indices reaches past an odd length. *)
Lemma comprehension_odd (extra : list string) a n acc :
  length extra = 2 * (a + n) + 1 →
  comprehension (E:=E) extra ((λ k, 2 * k) <$> seq a (S n)) acc
  = inl IndexError.
Proof.
  revert a acc. induction n as [|n IH]; intros a acc Hlen.
  - cbn [seq fmap list_fmap comprehension].
    rewrite (lookup_ge_None_2 extra (2 * a + 1)) by lia.
    by destruct (extra !! (2 * a)).
  - destruct (pair_in_range extra a) as (flag & value & Hf & Hv); [lia|].
    rewrite (comprehension_step _ _ _ _ flag value) by done.
    apply IH. lia.
Qed.

(** On pairs that are all in range the comprehension returns. *)
Lemma comprehension_returns (extra : list string) a n acc :
  (2 * (a + n) ≤ length extra)%nat →
  ∃ kwargs,
    comprehension (E:=E) extra ((λ k, 2 * k) <$> seq a n) acc = inr kwargs.
Proof.
  revert a acc. induction n as [|n IH]; intros a acc Hlen; [by eexists|].
  destruct (pair_in_range extra a) as (flag & value & Hf & Hv); [lia|].
  rewrite (comprehension_step _ _ _ _ flag value) by done.
  apply IH. lia.
Qed.

(** A key that no flag of the range strips to keeps its entry. *)
Lemma comprehension_other (extra : list string) a n acc kwargs key :
  comprehension (E:=E) extra ((λ k, 2 * k) <$> seq a n) acc = inr kwargs →
  (∀ j flag, (a ≤ j < a + n)%nat → extra !! (2 * j) = Some flag →
     lstrip "-" flag ≠ key) →
  kwargs !! key = acc !! key.
Proof.
  revert a acc. induction n as [|n IH]; intros a acc Hrun Hfresh.
  - cbn in Hrun. by injection Hrun as <-.
  - cbn [seq fmap list_fmap comprehension] in Hrun.
    destruct (extra !! (2 * a)) as [flag|] eqn:Hf; [|done].
    destruct (extra !! (2 * a + 1)) as [value|] eqn:Hv; [|done].
    rewrite (IH (S a) _ Hrun).
    + apply lookup_insert_ne. apply (Hfresh a); [lia|done].
    + intros j flag' Hj. apply Hfresh. lia.
Qed.

(** The value of a key is that of the last pair whose flag strips to it. *)
Lemma comprehension_last (extra : list string) a n acc kwargs j flag value :
  comprehension (E:=E) extra ((λ k, 2 * k) <$> seq a n) acc = inr kwargs →
  (a ≤ j < a + n)%nat →
  extra !! (2 * j) = Some flag →
  extra !! (2 * j + 1) = Some value →
  (∀ m flag', j < m < a + n → extra !! (2 * m) = Some flag' →
     lstrip "-" flag' ≠ lstrip "-" flag) →
  kwargs !! lstrip "-" flag = Some (PyStr value).
Proof.
  revert a acc. induction n as [|n IH]; intros a acc Hrun Hj Hf Hv Hlast; [lia|].
  cbn [seq fmap list_fmap comprehension] in Hrun.
  destruct (extra !! (2 * a)) as [flag0|] eqn:Hf0; [|done].
  destruct (extra !! (2 * a + 1)) as [value0|] eqn:Hv0; [|done].
  destruct (decide (j = a)) as [->|Hne].
  - rewrite (comprehension_other _ _ _ _ _ _ Hrun).
    + rewrite Hf in Hf0. rewrite Hv in Hv0.
      injection Hf0 as <-. injection Hv0 as <-. apply lookup_insert_eq.
    + intros m flag' Hm. apply Hlast. lia.
  - apply (IH (S a) _ Hrun); [lia|done..|].
    intros m flag' Hm. apply Hlast. lia.
Qed.

(** Every entry was there before or comes from a pair of the range. *)
Lemma comprehension_origin (extra : list string) a n acc kwargs key x :
  comprehension (E:=E) extra ((λ k, 2 * k) <$> seq a n) acc = inr kwargs →
  kwargs !! key = Some x →
  acc !! key = Some x
  ∨ ∃ j flag value, (a ≤ j < a + n)%nat ∧ extra !! (2 * j) = Some flag
      ∧ extra !! (2 * j + 1) = Some value
      ∧ key = lstrip "-" flag ∧ x = PyStr value.
Proof.
  revert a acc. induction n as [|n IH]; intros a acc Hrun Hx.
  - cbn in Hrun. injection Hrun as <-. by left.
  - cbn [seq fmap list_fmap comprehension] in Hrun.
    destruct (extra !! (2 * a)) as [flag|] eqn:Hf; [|done].
    destruct (extra !! (2 * a + 1)) as [value|] eqn:Hv; [|done].
    destruct (IH (S a) _ Hrun Hx) as [Hacc|(j & fl & vl & Hj & ?)].
    + apply lookup_insert_Some in Hacc as [[<- <-]|[_ Hacc]]; [|by left].
      right. exists a, flag, value. split_and!; [lia..|done|done|done|done].
    + right. exists j, fl, vl. split; [lia|done].
Qed.

(** The only exception of the comprehension is the [IndexError]. *)
Lemma comprehension_raises (extra : list string) indices acc e :
  comprehension (E:=E) extra indices acc = inl e → e = IndexError.
Proof.
  revert acc. induction indices as [|i indices IH]; intros acc; [done|].
  cbn. destruct (extra !! i), (extra !! (i + 1)); eauto; congruence.
Qed.

Lemma extra_kwargs_odd (extra : list string) :
  Nat.Odd (length extra) → extra_kwargs (E:=E) extra = inl IndexError.
Proof.
  intros [m Hm]. unfold extra_kwargs. rewrite Hm, range_by_two_odd.
  apply comprehension_odd. lia.
Qed.

Lemma extra_kwargs_even (extra : list string) :
  Nat.Even (length extra) →
  ∃ kwargs, extra_kwargs (E:=E) extra = inr kwargs.
Proof.
  intros [m Hm]. unfold extra_kwargs. rewrite Hm, range_by_two_even.
  apply comprehension_returns. lia.
Qed.

Lemma extra_kwargs_last (extra : list string) kwargs j flag value :
  extra_kwargs (E:=E) extra = inr kwargs →
  extra !! (2 * j) = Some flag →
  extra !! (2 * j + 1) = Some value →
  (∀ m flag', j < m → extra !! (2 * m) = Some flag' →
     lstrip "-" flag' ≠ lstrip "-" flag) →
  kwargs !! lstrip "-" flag = Some (PyStr value).
Proof.
  unfold extra_kwargs, range_by_two. intros Hrun Hf Hv Hlast.
  apply (comprehension_last _ _ _ _ _ j flag value Hrun); [|done..|].
  - apply lookup_lt_Some in Hv.
    assert (Hd := Nat.div2_odd (S (length extra))).
    set (d := Nat.div2 (S (length extra))) in *.
    destruct (Nat.odd (S (length extra))); unfold Nat.b2n in Hd; lia.
  - intros m flag' Hm. apply Hlast. lia.
Qed.

Lemma extra_kwargs_other (extra : list string) kwargs key :
  extra_kwargs (E:=E) extra = inr kwargs →
  (∀ j flag, extra !! (2 * j) = Some flag → lstrip "-" flag ≠ key) →
  kwargs !! key = None.
Proof.
  unfold extra_kwargs. intros Hrun Hfresh.
  rewrite (comprehension_other _ _ _ _ _ key Hrun); [done|]. eauto.
Qed.

Lemma extra_kwargs_origin (extra : list string) kwargs key x :
  extra_kwargs (E:=E) extra = inr kwargs →
  kwargs !! key = Some x →
  ∃ j flag value, extra !! (2 * j) = Some flag
    ∧ extra !! (2 * j + 1) = Some value
    ∧ key = lstrip "-" flag ∧ x = PyStr value.
Proof.
  unfold extra_kwargs. intros Hrun Hx.
  destruct (comprehension_origin _ _ _ _ _ _ _ Hrun Hx)
    as [Hacc|(j & flag & value & _ & ?)]; [done|eauto].
Qed.

End Comprehension.

(** ** Every flag leaves an entry *)

Section ComprehensionKeys.

Context {E : Type}.

(** A key bound before the comprehension runs is still bound after it. *)
Lemma comprehension_keeps (extra : list string) indices acc kwargs key :
  comprehension (E:=E) extra indices acc = inr kwargs →
  is_Some (acc !! key) → is_Some (kwargs !! key).
Proof.
  revert acc. induction indices as [|i indices IH]; intros acc Hrun Hkey.
  - cbn in Hrun. by injection Hrun as <-.
  - cbn in Hrun.
    destruct (extra !! i) as [flag|]; [|done].
    destruct (extra !! (i + 1)) as [value|]; [|done].
    apply (IH _ Hrun). rewrite lookup_insert_is_Some.
    destruct (decide (lstrip "-" flag = key)); auto.
Qed.

(** Every flag of the range binds the name it strips to. *)
Lemma comprehension_member (extra : list string) a n acc kwargs j flag :
  comprehension (E:=E) extra ((λ k, 2 * k) <$> seq a n) acc = inr kwargs →
  (a ≤ j < a + n)%nat →
  extra !! (2 * j) = Some flag →
  is_Some (kwargs !! lstrip "-" flag).
Proof.
  revert a acc. induction n as [|n IH]; intros a acc Hrun Hj Hf; [lia|].
  cbn [seq fmap list_fmap comprehension] in Hrun.
  destruct (extra !! (2 * a)) as [flag0|] eqn:Hf0; [|done].
  destruct (extra !! (2 * a + 1)) as [value0|] eqn:Hv0; [|done].
  destruct (decide (j = a)) as [->|Hne].
  - apply (comprehension_keeps _ _ _ _ _ Hrun).
    rewrite Hf in Hf0. injection Hf0 as <-. by rewrite lookup_insert_eq.
  - apply (IH (S a) _ Hrun); [lia|done].
Qed.

Lemma extra_kwargs_member (extra : list string) kwargs j flag :
  extra_kwargs (E:=E) extra = inr kwargs →
  extra !! (2 * j) = Some flag →
  is_Some (kwargs !! lstrip "-" flag).
Proof.
  unfold extra_kwargs, range_by_two. intros Hrun Hf.
  destruct (Nat.Even_or_Odd (length extra)) as [[m Hm]|Hodd].
  - apply (comprehension_member _ _ _ _ _ j flag Hrun); [|done].
    apply lookup_lt_Some in Hf. rewrite Hm, Nat.div2_succ_double. lia.
  - pose proof (extra_kwargs_odd (E:=E) extra Hodd) as Herr.
    unfold extra_kwargs, range_by_two in Herr. congruence.
Qed.

End ComprehensionKeys.

(** ** tapify from the overrides to the call *)

Section Run.

Context {E R : Type}.
Variable parse : option string → Docstring.
Variable parse_args : Tap → option (list string) → bool → E + Parsed.

Lemma build_schema_leftover (cf : Callable R) ko eb fk :
  func_kwargs (build_schema parse cf ko eb fk)
  = filter (λ kv, kv.1 ∉ declared (parameters cf)) fk.
Proof.
  apply map_eq. intros k. unfold build_schema.
  rewrite process_params_func_kwargs. cbn [initial_state func_kwargs].
  case_decide as Hk.
  - symmetry. apply map_lookup_filter_None. right. intros x _ Hx. by apply Hx.
  - destruct (fk !! k) as [x|] eqn:Hfk.
    + symmetry. by apply map_lookup_filter_Some.
    + symmetry. apply map_lookup_filter_None. by left.
Qed.

Lemma build_schema_known_only (cf : Callable R) ko eb fk :
  known_only (build_schema parse cf ko eb fk)
  = ko || bool_decide (Exists (λ p, Param.kind p = VAR_KEYWORD) (parameters cf)).
Proof. unfold build_schema. by rewrite process_params_known_only. Qed.

Lemma build_schema_has_kwargs (cf : Callable R) ko eb fk :
  has_kwargs (build_schema parse cf ko eb fk)
  = bool_decide (Exists (λ p, Param.kind p = VAR_KEYWORD) (parameters cf)).
Proof. unfold build_schema. by rewrite process_params_has_kwargs. Qed.

(** The schema does not look at the overrides of undeclared names. *)
Lemma build_schema_declared_only (cf : Callable R) ko eb fk :
  tap (build_schema parse cf ko eb
         (filter (λ kv, kv.1 ∈ declared (parameters cf)) fk))
  = tap (build_schema parse cf ko eb fk).
Proof.
  unfold build_schema. apply process_params_agree; [done|].
  intros n Hn. cbn [initial_state func_kwargs].
  destruct (fk !! n) as [x|] eqn:Hfk.
  - by apply map_lookup_filter_Some.
  - apply map_lookup_filter_None. by left.
Qed.

(** With [**kwargs] in the signature the run is: parse leniently, read
    the extra arguments, update the parsed values with them. *)
Lemma tapify_kwargs_var_keyword (cf : Callable R) ko args eb fk parsed :
  Exists (λ p, Param.kind p = VAR_KEYWORD) (parameters cf) →
  parse_args (tap (build_schema parse cf ko eb fk)) args true = inr parsed →
  tapify_kwargs parse parse_args cf ko args eb fk
  = do kwargs <- extra_kwargs (extra_args parsed);
    inr (kwargs ∪ as_dict parsed).
Proof.
  intros Hvk Hparse. unfold tapify_kwargs.
  rewrite build_schema_known_only, build_schema_has_kwargs.
  rewrite (bool_decide_eq_true_2 (Exists _ _)) by done.
  rewrite orb_true_r, andb_false_r. by rewrite Hparse.
Qed.

(** C2: when an override names no parameter, tapify ends with the
    [ValueError] that shows the overrides left exactly when [known_only] is
    false and there is no [**kwargs] parameter, and then the target is not
    called; otherwise no such error is raised and the run is the one
    without the overrides of undeclared names. *)
Theorem unknown_overrides (cf : Callable R) ko args eb fk k v :
  fk !! k = Some v →
  k ∉ Param.name <$> parameters cf →
  let lenient :=
    ko || bool_decide (Exists (λ p, Param.kind p = VAR_KEYWORD) (parameters cf)) in
  let leftover := filter (λ kv, kv.1 ∉ declared (parameters cf)) fk in
  leftover !! k = Some v
  ∧ (lenient = false →
       tapify parse parse_args cf ko args eb fk = inl (ValueError leftover))
  ∧ ((∃ unknown, tapify parse parse_args cf ko args eb fk
                 = inl (ValueError unknown)) → lenient = false)
  ∧ (lenient = true →
       tapify parse parse_args cf ko args eb fk
       = tapify parse parse_args cf ko args eb
           (filter (λ kv, kv.1 ∈ declared (parameters cf)) fk)).
Proof.
  intros Hk Hunknown lenient leftover.
  assert (leftover !! k = Some v) as Hleft.
  { apply map_lookup_filter_Some. split; [done|]. cbn.
    intros Hin. by apply Hunknown, declared_subseteq. }
  split; [done|].
  unfold tapify, tapify_kwargs.
  rewrite !build_schema_known_only, !build_schema_has_kwargs.
  rewrite !build_schema_leftover, build_schema_declared_only.
  fold lenient leftover. split_and!.
  - intros ->. rewrite bool_decide_eq_true_2; [done|].
    intros Hempty. by rewrite Hempty, lookup_empty in Hleft.
  - intros [unknown Hrun]. destruct lenient; [|done].
    rewrite andb_false_r in Hrun.
    destruct (parse_args _ args true) as [e|parsed]; [done|]. cbn in Hrun.
    unfold merge_extra in Hrun. destruct (bool_decide _); [|done].
    destruct (extra_kwargs (extra_args parsed)) as [e|kwargs] eqn:Hex; [|done].
    apply comprehension_raises in Hex. by subst e.
  - intros ->. by rewrite !andb_false_r.
Qed.

(** C3: with [**kwargs] in the signature, an odd number of extra
    arguments ends tapify with the [IndexError] of the pair that is cut
    short; the target is not called with the last token dropped. *)
Theorem odd_extra_args_raise (cf : Callable R) ko args eb fk parsed :
  Exists (λ p, Param.kind p = VAR_KEYWORD) (parameters cf) →
  parse_args (tap (build_schema parse cf ko eb fk)) args true = inr parsed →
  Nat.Odd (length (extra_args parsed)) →
  tapify_kwargs parse parse_args cf ko args eb fk = inl IndexError
  ∧ tapify parse parse_args cf ko args eb fk = inl IndexError.
Proof.
  intros Hvk Hparse Hodd. unfold tapify.
  rewrite (tapify_kwargs_var_keyword _ _ _ _ _ parsed) by done.
  by rewrite extra_kwargs_odd.
Qed.

(** C4: with [**kwargs] in the signature, an even number of extra
    arguments is read as pairs of a flag and a value; the target is called,
    and each pair whose name is not given again by a later pair is passed
    as the keyword argument named by the flag without its leading dashes,
    with the value as a string; the extra arguments contribute nothing
    else. *)
Theorem extra_args_become_kwargs (cf : Callable R) ko args eb fk parsed :
  Exists (λ p, Param.kind p = VAR_KEYWORD) (parameters cf) →
  parse_args (tap (build_schema parse cf ko eb fk)) args true = inr parsed →
  Nat.Even (length (extra_args parsed)) →
  ∃ kwargs final,
    extra_kwargs (E:=E) (extra_args parsed) = inr kwargs
    ∧ tapify_kwargs parse parse_args cf ko args eb fk = inr final
    ∧ tapify parse parse_args cf ko args eb fk = inr (invoke cf final)
    ∧ (∀ j flag value,
         extra_args parsed !! (2 * j) = Some flag →
         extra_args parsed !! (2 * j + 1) = Some value →
         (∀ m flag', j < m → extra_args parsed !! (2 * m) = Some flag' →
            lstrip "-" flag' ≠ lstrip "-" flag) →
         kwargs !! lstrip "-" flag = Some (PyStr value)
         ∧ final !! lstrip "-" flag = Some (PyStr value))
    ∧ (∀ key x, kwargs !! key = Some x →
         ∃ j flag value,
           extra_args parsed !! (2 * j) = Some flag
           ∧ extra_args parsed !! (2 * j + 1) = Some value
           ∧ key = lstrip "-" flag ∧ x = PyStr value).
Proof.
  intros Hvk Hparse Heven.
  destruct (extra_kwargs_even (E:=E) _ Heven) as [kwargs Hrun].
  exists kwargs, (kwargs ∪ as_dict parsed). unfold tapify.
  rewrite (tapify_kwargs_var_keyword _ _ _ _ _ parsed) by done.
  rewrite Hrun. split_and!; try done.
  - intros j flag value Hf Hv Hlast.
    assert (kwargs !! lstrip "-" flag = Some (PyStr value)) as Hkw
      by by eapply extra_kwargs_last.
    split; [done|]. by apply lookup_union_Some_l.
  - intros key x Hx. by eapply extra_kwargs_origin.
Qed.

(** C5, as the code has it: the extra arguments update the parsed values.
    Every leftover flag binds the name it strips to, to the value that
    follows the last flag of that name, and the final call has that
    binding, also when the name is that of a parsed value, which is then
    replaced.  A parsed value stays as it is exactly for the names no
    leftover flag strips to.  The keys of the two dictionaries are disjoint
    if and only if no leftover flag strips to the name of a parsed
    value. *)
Theorem extra_kwargs_update (cf : Callable R) ko args eb fk parsed :
  Exists (λ p, Param.kind p = VAR_KEYWORD) (parameters cf) →
  parse_args (tap (build_schema parse cf ko eb fk)) args true = inr parsed →
  Nat.Even (length (extra_args parsed)) →
  ∃ kwargs final,
    extra_kwargs (E:=E) (extra_args parsed) = inr kwargs
    ∧ tapify_kwargs parse parse_args cf ko args eb fk = inr final
    ∧ tapify parse parse_args cf ko args eb fk = inr (invoke cf final)
    ∧ (∀ key,
         (∀ j flag, extra_args parsed !! (2 * j) = Some flag →
            lstrip "-" flag ≠ key) →
         kwargs !! key = None ∧ final !! key = as_dict parsed !! key)
    ∧ (∀ j flag,
         extra_args parsed !! (2 * j) = Some flag →
         ∃ j' flag' value',
           extra_args parsed !! (2 * j') = Some flag'
           ∧ extra_args parsed !! (2 * j' + 1) = Some value'
           ∧ lstrip "-" flag' = lstrip "-" flag
           ∧ kwargs !! lstrip "-" flag = Some (PyStr value')
           ∧ final !! lstrip "-" flag = Some (PyStr value'))
    ∧ (∀ j flag value,
         extra_args parsed !! (2 * j) = Some flag →
         extra_args parsed !! (2 * j + 1) = Some value →
         (∀ m flag', j < m → extra_args parsed !! (2 * m) = Some flag' →
            lstrip "-" flag' ≠ lstrip "-" flag) →
         final !! lstrip "-" flag = Some (PyStr value))
    ∧ (dom kwargs ## dom (as_dict parsed)
       ↔ ∀ j flag, extra_args parsed !! (2 * j) = Some flag →
           as_dict parsed !! lstrip "-" flag = None).
Proof.
  intros Hvk Hparse Heven.
  destruct (extra_kwargs_even (E:=E) _ Heven) as [kwargs Hrun].
  exists kwargs, (kwargs ∪ as_dict parsed). unfold tapify.
  rewrite (tapify_kwargs_var_keyword _ _ _ _ _ parsed) by done.
  rewrite Hrun. split_and!; try done.
  - intros key Hfresh.
    assert (kwargs !! key = None) as Hnone by by eapply extra_kwargs_other.
    split; [done|]. by rewrite lookup_union_r.
  - intros j flag Hf.
    destruct (extra_kwargs_member _ _ _ _ Hrun Hf) as [x Hx].
    destruct (extra_kwargs_origin _ _ _ _ Hrun Hx)
      as (j' & flag' & value' & Hf' & Hv' & Hkey & ->).
    exists j', flag', value'. split_and!; try done.
    by apply lookup_union_Some_l.
  - intros j flag value Hf Hv Hlast.
    apply lookup_union_Some_l. by eapply extra_kwargs_last.
  - split.
    + intros Hdisj j flag Hf.
      apply not_elem_of_dom. intros Hin.
      apply (Hdisj (lstrip "-" flag)); [|done].
      apply elem_of_dom. by eapply extra_kwargs_member.
    + intros Hnone key [x Hx]%elem_of_dom [y Hy]%elem_of_dom.
      destruct (extra_kwargs_origin _ _ _ _ Hrun Hx)
        as (j & flag & value & Hf & _ & -> & _).
      rewrite (Hnone j flag Hf) in Hy. done.
Qed.

(** C10: when two flags among an even number of extra arguments strip to
    the same name, the comprehension raises nothing and the name is bound
    to the value that follows the last flag of that name. *)
Theorem duplicate_flag_last_wins (extra : list string) i j flag_i flag_j value_j :
  Nat.Even (length extra) →
  i < j →
  extra !! (2 * i) = Some flag_i →
  extra !! (2 * j) = Some flag_j →
  extra !! (2 * j + 1) = Some value_j →
  lstrip "-" flag_i = lstrip "-" flag_j →
  (∀ m flag', j < m → extra !! (2 * m) = Some flag' →
     lstrip "-" flag' ≠ lstrip "-" flag_j) →
  ∃ kwargs,
    extra_kwargs (E:=E) extra = inr kwargs
    ∧ kwargs !! lstrip "-" flag_i = Some (PyStr value_j).
Proof.
  intros Heven Hij Hfi Hfj Hvj Hsame Hlast.
  destruct (extra_kwargs_even (E:=E) _ Heven) as [kwargs Hrun].
  exists kwargs. split; [done|]. rewrite Hsame. by eapply extra_kwargs_last.
Qed.

End Run.

(** ** The properties on the example targets *)

(** [f(name, count=3)] with the override [count=10]: the default of
    [--count] is 10 and the override is used up. *)
Lemma override_precedence_witness :
  argument_spec
    (tap (build_schema plain_parse f_name_count false false
            {[ "count" := PyInt 10 ]})) "count"
  = Some {[ "default" := PyInt 10 ]}
  ∧ func_kwargs (build_schema plain_parse f_name_count false false
                   {[ "count" := PyInt 10 ]}) !! "count" = None.
Proof.
  apply (override_precedence plain_parse f_name_count false false
           {[ "count" := PyInt 10 ]}
           (Param.mk "count" POSITIONAL_OR_KEYWORD (Some (Cls "int"))
              (Some (PyInt 3)))).
  - by_decide.
  - by_decide.
  - discriminate.
  - reflexivity.
Defined.

(** [g(x, **kwargs)]: both flags end up true and [**kwargs] registers
    nothing. *)
Lemma var_keyword_skipped_witness :
  has_kwargs (build_schema plain_parse g_x_kwargs false false ∅) = true
  ∧ known_only (build_schema plain_parse g_x_kwargs false false ∅) = true.
Proof.
  pose proof (var_keyword_skipped plain_parse g_x_kwargs false false ∅
                [Param.mk "x" POSITIONAL_OR_KEYWORD None None]
                (Param.mk "kwargs" VAR_KEYWORD None None) []
                eq_refl eq_refl) as H.
  split; [apply H|apply H].
Defined.

(** [C(a: Any, b=1)]: the type of [--a] is [str]. *)
Lemma type_resolution_witness :
  _annotations (tap (build_schema plain_parse class_C false false ∅)) !! "a"
  = Some str.
Proof.
  apply (type_resolution plain_parse class_C false false ∅
           (Param.mk "a" POSITIONAL_OR_KEYWORD (Some Any) None)).
  - by_decide.
  - by_decide.
  - discriminate.
Defined.

(** The class [C] documents its constructor: that text is parsed.  The
    function [f] has no documentation: its parser has an empty
    description. *)
Lemma documentation_source_witness :
  select_doc class_C = Some "Make a C."
  ∧ tap_description (tap (build_schema plain_parse f_name_count false false ∅))
    = "".
Proof.
  split.
  - apply (documentation_source plain_parse class_C false false ∅).
    + reflexivity.
    + reflexivity.
  - apply (documentation_source plain_parse f_name_count false false ∅).
    + reflexivity.
    + reflexivity.
Defined.

(** [f(name, count=3)] with the override [cnt=10] and no leniency. *)
Lemma unknown_overrides_witness :
  tapify plain_parse (spec_parse_args []) f_name_count false
    (Some ["--name"; "abc"]) false {[ "cnt" := PyInt 10 ]}
  = inl (ValueError
           (filter (λ kv, kv.1 ∉ declared (parameters f_name_count))
              {[ "cnt" := PyInt 10 ]})).
Proof.
  apply (unknown_overrides plain_parse (spec_parse_args []) f_name_count false
           (Some ["--name"; "abc"]) false {[ "cnt" := PyInt 10 ]}
           "cnt" (PyInt 10)).
  - reflexivity.
  - by_decide.
  - reflexivity.
Defined.

Example unknown_override_lenient :
  tapify plain_parse (spec_parse_args []) f_name_count true
    (Some ["--name"; "abc"]) false {[ "cnt" := PyInt 10 ]}
  = inr {[ "name" := PyStr "abc"; "count" := PyInt 3 ]}.
Proof. vm_compute. reflexivity. Qed.

(** [g(x, **kwargs)] called with [--x 1 --extra1]. *)
Lemma odd_extra_args_raise_witness :
  tapify_kwargs plain_parse (spec_parse_args []) g_x_kwargs false
    (Some ["--x"; "1"; "--extra1"]) false ∅ = inl IndexError
  ∧ tapify plain_parse (spec_parse_args []) g_x_kwargs false
      (Some ["--x"; "1"; "--extra1"]) false ∅ = inl IndexError.
Proof.
  apply (odd_extra_args_raise plain_parse (spec_parse_args []) g_x_kwargs false
           (Some ["--x"; "1"; "--extra1"]) false ∅
           {| as_dict := {[ "x" := PyStr "1" ]};
              extra_args := ["--extra1"] |}).
  - by_decide.
  - vm_compute. reflexivity.
  - exists 0. reflexivity.
Defined.

(** [g(x, **kwargs)] called with [--x 1 --extra1 5 --extra2 x]. *)
Example variadic_round_trip :
  tapify plain_parse (spec_parse_args []) g_x_kwargs false
    (Some ["--x"; "1"; "--extra1"; "5"; "--extra2"; "x"]) false ∅
  = inr {[ "x" := PyStr "1"; "extra1" := PyStr "5"; "extra2" := PyStr "x" ]}.
Proof. vm_compute. reflexivity. Qed.

Lemma extra_args_become_kwargs_witness :
  ∃ final,
    tapify plain_parse (spec_parse_args []) g_x_kwargs false
      (Some ["--x"; "1"; "--extra1"; "5"; "--extra2"; "x"]) false ∅
    = inr final
    ∧ final !! "extra1" = Some (PyStr "5")
    ∧ final !! "extra2" = Some (PyStr "x").
Proof.
  destruct (extra_args_become_kwargs plain_parse (spec_parse_args [])
              g_x_kwargs false
              (Some ["--x"; "1"; "--extra1"; "5"; "--extra2"; "x"]) false ∅
              {| as_dict := {[ "x" := PyStr "1" ]};
                 extra_args := ["--extra1"; "5"; "--extra2"; "x"] |})
    as (kwargs & final & _ & _ & Hcall & Hpairs & _).
  - by_decide.
  - vm_compute. reflexivity.
  - exists 2. reflexivity.
  - exists (invoke g_x_kwargs final). split; [exact Hcall|]. split.
    + apply (Hpairs 0 "--extra1" "5"); [reflexivity..|].
      intros m flag' Hm Hl. apply lookup_lt_Some in Hl as Hlt. cbn in Hlt.
      assert (m = 1) as -> by lia. injection Hl as <-. discriminate.
    + apply (Hpairs 1 "--extra2" "x"); [reflexivity..|].
      intros m flag' Hm Hl. apply lookup_lt_Some in Hl. cbn in Hl. lia.
Defined.

(** C5 fails: [g(x, **kwargs)] called with [--x 1 -x 2].  The token [-x]
    is no registered flag, so it is an extra argument; it strips to the
    name of the parameter [x], whose parsed value "1" is replaced by
    "2". *)
Lemma extra_kwargs_override_named :
  spec_parse_args []
    (tap (build_schema plain_parse g_x_kwargs false false ∅))
    (Some ["--x"; "1"; "-x"; "2"]) true
  = inr {| as_dict := {[ "x" := PyStr "1" ]}; extra_args := ["-x"; "2"] |}
  ∧ extra_kwargs (E:=parser_exn) ["-x"; "2"] = inr {[ "x" := PyStr "2" ]}
  ∧ ¬ (dom ({[ "x" := PyStr "2" ]} : gmap string pyobj)
       ## dom ({[ "x" := PyStr "1" ]} : gmap string pyobj))
  ∧ tapify_kwargs plain_parse (spec_parse_args []) g_x_kwargs false
      (Some ["--x"; "1"; "-x"; "2"]) false ∅
    = inr {[ "x" := PyStr "2" ]}
  ∧ tapify plain_parse (spec_parse_args []) g_x_kwargs false
      (Some ["--x"; "1"; "-x"; "2"]) false ∅
    ≠ inr {[ "x" := PyStr "1" ]}.
Proof.
  split_and!.
  - vm_compute. reflexivity.
  - vm_compute. reflexivity.
  - rewrite !dom_singleton_L. set_solver.
  - vm_compute. reflexivity.
  - vm_compute. discriminate.
Qed.

(** [g(x, **kwargs)] called with [--x 1 --extra1 5]: [x] keeps its parsed
    value.  Called with [--x 1 -x 2]: the leftover flag [-x] replaces
    it. *)
Lemma extra_kwargs_update_witness :
  (∃ final,
     tapify_kwargs plain_parse (spec_parse_args []) g_x_kwargs false
       (Some ["--x"; "1"; "--extra1"; "5"]) false ∅ = inr final
     ∧ final !! "x" = Some (PyStr "1"))
  ∧ (∃ final,
       tapify_kwargs plain_parse (spec_parse_args []) g_x_kwargs false
         (Some ["--x"; "1"; "-x"; "2"]) false ∅ = inr final
       ∧ final !! "x" = Some (PyStr "2")).
Proof.
  split.
  - destruct (extra_kwargs_update plain_parse (spec_parse_args [])
                g_x_kwargs false (Some ["--x"; "1"; "--extra1"; "5"]) false ∅
                {| as_dict := {[ "x" := PyStr "1" ]};
                   extra_args := ["--extra1"; "5"] |})
      as (kwargs & final & _ & Hrun & _ & Hkeep & _).
    + by_decide.
    + vm_compute. reflexivity.
    + exists 1. reflexivity.
    + exists final. split; [exact Hrun|].
      destruct (Hkeep "x") as [_ ->]; [|reflexivity].
      intros j flag Hl. apply lookup_lt_Some in Hl as Hlt. cbn in Hlt.
      assert (j = 0) as -> by lia. injection Hl as <-. discriminate.
  - destruct (extra_kwargs_update plain_parse (spec_parse_args [])
                g_x_kwargs false (Some ["--x"; "1"; "-x"; "2"]) false ∅
                {| as_dict := {[ "x" := PyStr "1" ]};
                   extra_args := ["-x"; "2"] |})
      as (kwargs & final & _ & Hrun & _ & _ & _ & Hlast & _).
    + by_decide.
    + vm_compute. reflexivity.
    + exists 1. reflexivity.
    + exists final. split; [exact Hrun|].
      apply (Hlast 0 "-x" "2"); [reflexivity..|].
      intros m flag' Hm Hl. apply lookup_lt_Some in Hl. cbn in Hl. lia.
Defined.

(** The flags [--x], [-x] and [---x] all strip to [x]; the last value
    stays. *)
Lemma duplicate_flag_last_wins_witness :
  ∃ kwargs,
    extra_kwargs (E:=parser_exn) ["--x"; "1"; "-x"; "2"; "---x"; "3"]
    = inr kwargs
    ∧ kwargs !! "x" = Some (PyStr "3").
Proof.
  apply (duplicate_flag_last_wins (E:=parser_exn)
           ["--x"; "1"; "-x"; "2"; "---x"; "3"] 0 2 "--x" "---x" "3").
  - exists 3. reflexivity.
  - lia.
  - reflexivity.
  - reflexivity.
  - reflexivity.
  - reflexivity.
  - intros m flag' Hm Hl. apply lookup_lt_Some in Hl. cbn in Hl. lia.
Defined.

Example duplicate_flags_mapping :
  extra_kwargs (E:=parser_exn) ["--x"; "1"; "-x"; "2"; "---x"; "3"]
  = inr {[ "x" := PyStr "3" ]}.
Proof. vm_compute. reflexivity. Qed.

(** * Further properties of the code *)

(** ** Flags and names *)

Lemma lstrip_fixed chars s : begins_in chars s = false → lstrip chars s = s.
Proof. destruct s as [|c rest]; [done|]. cbn. by intros ->. Qed.

Lemma lstrip_begins chars s : begins_in chars (lstrip chars s) = false.
Proof.
  induction s as [|c rest IH]; [done|].
  cbn [lstrip]. by destruct (occurs c chars) eqn:Hc.
Qed.

(** X1: [lstrip] removes a prefix made of the given characters only, and
    what is left does not begin with one of them. *)
Theorem lstrip_characterised chars s :
  ∃ prefix,
    s = prefix +:+ lstrip chars s
    ∧ all_in chars prefix = true
    ∧ begins_in chars (lstrip chars s) = false.
Proof.
  induction s as [|c rest (prefix & Hs & Hall & Hb)].
  - by exists "".
  - cbn [lstrip]. destruct (occurs c chars) eqn:Hc.
    + exists (String c prefix). split_and!; [|by cbn; rewrite Hc, Hall|done].
      change (String c rest = String c (prefix +:+ lstrip chars rest)).
      by rewrite <- Hs.
    + exists "". by cbn.
Qed.

(** X2: the flag registered for a parameter strips back to the name of the
    parameter, for a name that does not begin with a dash. *)
Theorem flag_strips_to_name name :
  begins_in "-" name = false → lstrip "-" ("--" +:+ name) = name.
Proof. intros Hb. exact (lstrip_fixed "-" name Hb). Qed.

Lemma flag_strips_to_name_witness : lstrip "-" ("--" +:+ "count") = "count".
Proof. apply (flag_strips_to_name "count"). reflexivity. Defined.

(** ** The dictionary of the extra arguments *)

Section ExtraKwargs.

Context {E : Type}.

Lemma comprehension_size (extra : list string) a n acc kwargs :
  comprehension (E:=E) extra ((λ k, 2 * k) <$> seq a n) acc = inr kwargs →
  (size kwargs ≤ size acc + n)%nat.
Proof.
  revert a acc. induction n as [|n IH]; intros a acc Hrun.
  - cbn in Hrun. injection Hrun as <-. lia.
  - cbn [seq fmap list_fmap comprehension] in Hrun.
    destruct (extra !! (2 * a)) as [flag|]; [|done].
    destruct (extra !! (2 * a + 1)) as [value|]; [|done].
    apply IH in Hrun. rewrite map_size_insert in Hrun.
    destruct (acc !! lstrip "-" flag); cbn in Hrun; lia.
Qed.

(** X3: the dictionary read from the extra arguments has keys that do not
    begin with a dash and values that are strings, and it has at most one
    entry per pair of tokens. *)
Theorem extra_kwargs_entries (extra : list string) kwargs :
  extra_kwargs (E:=E) extra = inr kwargs →
  (∀ key x, kwargs !! key = Some x →
     begins_in "-" key = false ∧ ∃ value, x = PyStr value)
  ∧ (2 * size kwargs ≤ length extra)%nat.
Proof.
  intros Hrun. split.
  - intros key x Hx.
    destruct (extra_kwargs_origin _ _ _ _ Hrun Hx)
      as (j & flag & value & _ & _ & -> & ->).
    split; [apply lstrip_begins|by eexists].
  - destruct (Nat.Even_or_Odd (length extra)) as [[m Hm]|Hodd].
    + unfold extra_kwargs in Hrun. rewrite Hm, range_by_two_even in Hrun.
      apply comprehension_size in Hrun. rewrite map_size_empty in Hrun. lia.
    + by rewrite extra_kwargs_odd in Hrun.
Qed.

End ExtraKwargs.

Lemma extra_kwargs_entries_witness :
  (∀ key x, ({[ "a" := PyStr "1" ]} : gmap string pyobj) !! key = Some x →
     begins_in "-" key = false ∧ ∃ value, x = PyStr value)
  ∧ (2 * size ({[ "a" := PyStr "1" ]} : gmap string pyobj)
     ≤ length ["--a"; "1"])%nat.
Proof.
  apply (extra_kwargs_entries (E:=parser_exn) ["--a"; "1"]).
  vm_compute. reflexivity.
Defined.

(** ** More on the loop *)

Lemma NoDup_name_inj ps p q :
  NoDup (Param.name <$> ps) → p ∈ ps → q ∈ ps →
  Param.name p = Param.name q → p = q.
Proof.
  intros Hnd Hp Hq Heq.
  apply list_elem_of_lookup in Hp as [i Hi].
  apply list_elem_of_lookup in Hq as [j Hj].
  assert (i = j) as ->; [|congruence].
  eapply NoDup_lookup; [exact Hnd|..];
    rewrite list_lookup_fmap; [by rewrite Hi|by rewrite Hj, Heq].
Qed.

Lemma declared_elem_of ps n :
  n ∈ declared ps
  ↔ ∃ p, p ∈ ps ∧ Param.kind p ≠ VAR_KEYWORD ∧ Param.name p = n.
Proof.
  unfold declared. rewrite list_elem_of_fmap. split.
  - intros (p & -> & Hp). apply list_elem_of_filter in Hp as [? ?]. eauto.
  - intros (p & Hp & Hk & <-). exists p. split; [done|].
    by apply list_elem_of_filter.
Qed.

Lemma var_keyword_name_not_declared ps p :
  NoDup (Param.name <$> ps) → p ∈ ps → Param.kind p = VAR_KEYWORD →
  Param.name p ∉ declared ps.
Proof.
  intros Hnd Hp Hvk (q & Hq & Hk & Heq)%declared_elem_of.
  apply Hk. by rewrite (NoDup_name_inj ps q p Hnd Hq Hp Heq).
Qed.

Lemma process_params_explicit_bool ptd st ps :
  tap_explicit_bool (tap (process_params ptd st ps))
  = tap_explicit_bool (tap st).
Proof.
  revert st. induction ps as [|p ps IH]; intros st; [done|].
  rewrite process_params_cons, IH.
  destruct (decide (Param.kind p = VAR_KEYWORD)) as [Hvk|Hvk].
  - by rewrite process_param_var_keyword.
  - rewrite process_param_named by done. cbn. unfold attach_help, annotate.
    by destruct (ptd !! Param.name p), (Param.annotation p) as [[]|].
Qed.

Lemma annotate_class_variables p t :
  class_variables (annotate p t) = class_variables t.
Proof. unfold annotate. by destruct (Param.annotation p) as [[]|]. Qed.

(** The help strings recorded by one iteration. *)
Lemma process_param_class_variables ptd st p :
  class_variables (tap (process_param ptd st p))
  = if decide (Param.kind p = VAR_KEYWORD) then class_variables (tap st)
    else match ptd !! Param.name p with
         | Some c =>
             <[Param.name p :=
                 {[ "comment" := match c with
                                 | Some s => PyStr s
                                 | None => PyNone
                                 end ]}]> (class_variables (tap st))
         | None => class_variables (tap st)
         end.
Proof.
  case_decide as Hvk.
  - by rewrite process_param_var_keyword.
  - rewrite process_param_named by done. cbn. unfold attach_help.
    destruct (ptd !! Param.name p); cbn; by rewrite annotate_class_variables.
Qed.

Lemma process_params_class_variables_other ptd st ps n :
  n ∉ declared ps →
  class_variables (tap (process_params ptd st ps)) !! n
  = class_variables (tap st) !! n.
Proof.
  revert st. induction ps as [|p ps IH]; intros st Hn; [done|].
  rewrite process_params_cons.
  destruct (decide (Param.kind p = VAR_KEYWORD)) as [Hvk|Hvk].
  - rewrite declared_cons_var_keyword in Hn by done.
    rewrite IH, process_param_class_variables by done. by rewrite decide_True.
  - rewrite declared_cons_named in Hn by done.
    apply not_elem_of_cons in Hn as [Hne Hn].
    rewrite IH, process_param_class_variables by done.
    rewrite decide_False by done.
    destruct (ptd !! Param.name p); by rewrite ?lookup_insert_ne.
Qed.

Lemma process_params_class_variables ptd st ps p :
  NoDup (declared ps) →
  p ∈ ps →
  Param.kind p ≠ VAR_KEYWORD →
  class_variables (tap (process_params ptd st ps)) !! Param.name p
  = match ptd !! Param.name p with
    | Some c =>
        Some {[ "comment" := match c with
                             | Some s => PyStr s
                             | None => PyNone
                             end ]}
    | None => class_variables (tap st) !! Param.name p
    end.
Proof.
  revert st. induction ps as [|q ps IH]; intros st Hnd Hp Hvk.
  - by apply elem_of_nil in Hp.
  - rewrite process_params_cons.
    destruct (decide (Param.kind q = VAR_KEYWORD)) as [Hq|Hq].
    + rewrite declared_cons_var_keyword in Hnd by done.
      apply elem_of_cons in Hp as [->|Hp]; [done|].
      rewrite IH, process_param_class_variables by done.
      by rewrite decide_True.
    + rewrite declared_cons_named in Hnd by done.
      apply NoDup_cons in Hnd as [Hfresh Hnd].
      apply elem_of_cons in Hp as [->|Hp].
      * rewrite process_params_class_variables_other by done.
        rewrite process_param_class_variables, decide_False by done.
        destruct (ptd !! Param.name q); by rewrite ?lookup_insert_eq.
      * rewrite IH, process_param_class_variables by done.
        rewrite decide_False by done.
        assert (Param.name q ≠ Param.name p) as Hne.
        { intros Heq. apply Hfresh. rewrite Heq.
          apply declared_elem_of. eauto. }
        destruct (ptd !! Param.name p); [done|].
        destruct (ptd !! Param.name q); by rewrite ?lookup_insert_ne.
Qed.

Section FurtherSchema.

Context {R : Type}.
Variable parse : option string → Docstring.

(** X4: a parameter that gets an argument has a help string exactly when
    the documentation describes a parameter of its name; the string is the
    description, or [None] when the description is. *)
Theorem help_attached (cf : Callable R) ko eb fk p :
  NoDup (Param.name <$> parameters cf) →
  p ∈ parameters cf →
  Param.kind p ≠ VAR_KEYWORD →
  class_variables (tap (build_schema parse cf ko eb fk)) !! Param.name p
  = match param_descriptions (parse (select_doc cf)) !! Param.name p with
    | Some c =>
        Some {[ "comment" := match c with
                             | Some s => PyStr s
                             | None => PyNone
                             end ]}
    | None => None
    end.
Proof.
  intros Hnd Hp Hvk. unfold build_schema.
  rewrite process_params_class_variables by (try apply declared_NoDup; done).
  by destruct (param_descriptions _ !! Param.name p).
Qed.

(** X5: the schema mentions the parameters that get an argument only: a
    name that is not one of them, be it documented, overridden or the name
    of [**kwargs], has no argument, no type and no help string. *)
Theorem schema_only_declared (cf : Callable R) ko eb fk n :
  n ∉ declared (parameters cf) →
  argument_spec (tap (build_schema parse cf ko eb fk)) n = None
  ∧ _annotations (tap (build_schema parse cf ko eb fk)) !! n = None
  ∧ class_variables (tap (build_schema parse cf ko eb fk)) !! n = None.
Proof.
  intros Hn. unfold build_schema. split_and!.
  - unfold argument_spec. apply not_elem_of_list_to_map_1.
    rewrite process_params_flags. cbn [initial_state tap Tap_new
      added_arguments fmap list_fmap app].
    intros (m & Heq & Hm)%list_elem_of_fmap.
    apply flag_inj in Heq as ->. done.
  - by rewrite process_params_annotations_other.
  - by rewrite process_params_class_variables_other.
Qed.

(** X6: the loop leaves the description and [explicit_bool] of the parser
    as they were set: the description is the short and the long
    description of the documentation, [explicit_bool] is the caller's. *)
Theorem parser_settings_kept (cf : Callable R) ko eb fk :
  tap_description (tap (build_schema parse cf ko eb fk))
  = describe (parse (select_doc cf))
  ∧ tap_explicit_bool (tap (build_schema parse cf ko eb fk)) = eb.
Proof.
  unfold build_schema.
  by rewrite process_params_description, process_params_explicit_bool.
Qed.

(** X7: the schema, the overrides left and [has_kwargs] do not depend on
    the [known_only] the caller passes. *)
Theorem schema_independent_of_known_only (cf : Callable R) ko ko' eb fk :
  tap (build_schema parse cf ko eb fk) = tap (build_schema parse cf ko' eb fk)
  ∧ func_kwargs (build_schema parse cf ko eb fk)
    = func_kwargs (build_schema parse cf ko' eb fk)
  ∧ has_kwargs (build_schema parse cf ko eb fk)
    = has_kwargs (build_schema parse cf ko' eb fk).
Proof.
  unfold build_schema. split_and!.
  - by apply process_params_agree.
  - apply map_eq. intros k. by rewrite !process_params_func_kwargs.
  - by rewrite !process_params_has_kwargs.
Qed.

End FurtherSchema.

Lemma help_attached_witness :
  class_variables
    (tap (build_schema count_parse f_name_count false false ∅)) !! "count"
  = Some {[ "comment" := PyStr "How many." ]}.
Proof.
  apply (help_attached count_parse f_name_count false false ∅
           (Param.mk "count" POSITIONAL_OR_KEYWORD (Some (Cls "int"))
              (Some (PyInt 3)))).
  - by_decide.
  - by_decide.
  - discriminate.
Defined.

Lemma schema_only_declared_witness :
  argument_spec
    (tap (build_schema plain_parse g_x_kwargs false false
            {[ "kwargs" := PyInt 1 ]})) "kwargs" = None
  ∧ _annotations
      (tap (build_schema plain_parse g_x_kwargs false false
              {[ "kwargs" := PyInt 1 ]})) !! "kwargs" = None
  ∧ class_variables
      (tap (build_schema plain_parse g_x_kwargs false false
              {[ "kwargs" := PyInt 1 ]})) !! "kwargs" = None.
Proof.
  apply (schema_only_declared plain_parse g_x_kwargs false false
           {[ "kwargs" := PyInt 1 ]} "kwargs").
  by_decide.
Defined.

(** ** More on the run *)

Section FurtherRun.

Context {E R : Type}.
Variable parse : option string → Docstring.
Variable parse_args : Tap → option (list string) → bool → E + Parsed.

(** Past the check of the overrides left, the run is the parser and the
    extra arguments. *)
Lemma tapify_kwargs_check_passed (cf : Callable R) ko args eb fk :
  func_kwargs (build_schema parse cf ko eb fk) = ∅
  ∨ known_only (build_schema parse cf ko eb fk) = true →
  tapify_kwargs parse parse_args cf ko args eb fk
  = do parsed <-
      match parse_args (tap (build_schema parse cf ko eb fk)) args
              (known_only (build_schema parse cf ko eb fk)) with
      | inl e => inl (ParserError e)
      | inr parsed => inr parsed
      end;
    merge_extra (has_kwargs (build_schema parse cf ko eb fk)) parsed.
Proof.
  intros Hpass. unfold tapify_kwargs.
  destruct Hpass as [->| ->].
  - by rewrite bool_decide_eq_false_2 by (by intros []).
  - by rewrite andb_false_r.
Qed.

(** The [ValueError] comes from the check of the overrides left only. *)
Lemma tapify_ValueError_inv (cf : Callable R) ko args eb fk unknown :
  tapify parse parse_args cf ko args eb fk = inl (ValueError unknown) →
  func_kwargs (build_schema parse cf ko eb fk) ≠ ∅
  ∧ known_only (build_schema parse cf ko eb fk) = false.
Proof.
  unfold tapify, tapify_kwargs. intros Hrun.
  destruct (bool_decide _ && negb _) eqn:Hcheck.
  - apply andb_true_iff in Hcheck as [Hne Hko].
    apply bool_decide_eq_true_1 in Hne. by apply negb_true_iff in Hko.
  - destruct (parse_args _ args _) as [e|parsed]; [done|]. cbn in Hrun.
    unfold merge_extra in Hrun. destruct (has_kwargs _); [|done].
    destruct (extra_kwargs (extra_args parsed)) as [e|kwargs] eqn:Hex; [|done].
    apply comprehension_raises in Hex. by subst e.
Qed.

Lemma build_schema_leftover_empty (cf : Callable R) ko eb fk :
  func_kwargs (build_schema parse cf ko eb fk) = ∅
  ↔ ∀ k, is_Some (fk !! k) → k ∈ declared (parameters cf).
Proof.
  rewrite map_empty. unfold build_schema. split.
  - intros Hempty k [x Hx]. specialize (Hempty k).
    rewrite process_params_func_kwargs in Hempty.
    case_decide; [done|]. cbn in Hempty. congruence.
  - intros Hall k. rewrite process_params_func_kwargs.
    case_decide as Hk; [done|]. cbn.
    destruct (fk !! k) as [x|] eqn:Hx; [|done].
    destruct Hk. apply Hall. by rewrite Hx.
Qed.

(** X8: when the overrides left do not stop the run and the parser
    returns, a target without [**kwargs], or a parser that left no extra
    argument, has the target called with the parsed values as they are;
    without [**kwargs] the extra arguments are not read at all. *)
Theorem parsed_values_passed_through (cf : Callable R) ko args eb fk parsed :
  func_kwargs (build_schema parse cf ko eb fk) = ∅
  ∨ known_only (build_schema parse cf ko eb fk) = true →
  parse_args (tap (build_schema parse cf ko eb fk)) args
    (known_only (build_schema parse cf ko eb fk)) = inr parsed →
  ¬ Exists (λ p, Param.kind p = VAR_KEYWORD) (parameters cf)
  ∨ extra_args parsed = [] →
  tapify_kwargs parse parse_args cf ko args eb fk = inr (as_dict parsed)
  ∧ tapify parse parse_args cf ko args eb fk
    = inr (invoke cf (as_dict parsed)).
Proof.
  intros Hpass Hparse Hextra. unfold tapify.
  rewrite tapify_kwargs_check_passed, Hparse by done. cbn [bind_exn].
  rewrite build_schema_has_kwargs. unfold merge_extra.
  destruct Hextra as [Hno| ->].
  - by rewrite bool_decide_eq_false_2.
  - destruct (bool_decide _); [|done]. cbn.
    by rewrite (left_id_L ∅ (∪)).
Qed.

(** X9: when [known_only] is passed as true, or the signature has
    [**kwargs], or every override names a parameter that gets an argument,
    the parser is reached, with the leniency [known_only or **kwargs], and
    an exception it raises ends tapify as it is: no [ValueError] comes
    first and the target is not called. *)
Theorem parser_exception_propagates (cf : Callable R) ko args eb fk e :
  ko = true
  ∨ Exists (λ p, Param.kind p = VAR_KEYWORD) (parameters cf)
  ∨ (∀ k, is_Some (fk !! k) → k ∈ declared (parameters cf)) →
  parse_args (tap (build_schema parse cf ko eb fk)) args
    (ko || bool_decide
             (Exists (λ p, Param.kind p = VAR_KEYWORD) (parameters cf)))
  = inl e →
  tapify_kwargs parse parse_args cf ko args eb fk = inl (ParserError e)
  ∧ tapify parse parse_args cf ko args eb fk = inl (ParserError e).
Proof.
  intros Hreach Hparse. unfold tapify.
  rewrite tapify_kwargs_check_passed.
  - by rewrite build_schema_known_only, Hparse.
  - rewrite build_schema_known_only.
    destruct Hreach as [->|[Hvk|Hall]]; [by right|right|left].
    + rewrite (bool_decide_eq_true_2 (Exists _ _)) by done.
      apply orb_true_r.
    + by apply build_schema_leftover_empty.
Qed.

(** X10: the loop uses up all the overrides exactly when each of them
    names a parameter that gets an argument, and then tapify raises no
    [ValueError], whatever [known_only] is. *)
Theorem overrides_all_consumed (cf : Callable R) ko args eb fk :
  (func_kwargs (build_schema parse cf ko eb fk) = ∅
   ↔ ∀ k, is_Some (fk !! k) → k ∈ declared (parameters cf))
  ∧ ((∀ k, is_Some (fk !! k) → k ∈ declared (parameters cf)) →
     ∀ unknown,
       tapify parse parse_args cf ko args eb fk ≠ inl (ValueError unknown)).
Proof.
  split; [apply build_schema_leftover_empty|].
  intros Hall unknown Hrun.
  apply tapify_ValueError_inv in Hrun as [Hne _].
  by apply Hne, build_schema_leftover_empty.
Qed.

(** X11: an override with the name of the [**kwargs] parameter is not
    used up by the loop, raises no [ValueError], and has no effect: the
    run is the one without it. *)
Theorem var_keyword_name_override (cf : Callable R) ko args eb fk p v :
  NoDup (Param.name <$> parameters cf) →
  p ∈ parameters cf →
  Param.kind p = VAR_KEYWORD →
  fk !! Param.name p = Some v →
  func_kwargs (build_schema parse cf ko eb fk) !! Param.name p = Some v
  ∧ (∀ unknown,
       tapify parse parse_args cf ko args eb fk ≠ inl (ValueError unknown))
  ∧ tapify parse parse_args cf ko args eb fk
    = tapify parse parse_args cf ko args eb (delete (Param.name p) fk).
Proof.
  intros Hnd Hp Hvk Hfk.
  assert (Param.name p ∉ declared (parameters cf)) as Hout
    by by apply var_keyword_name_not_declared.
  assert (Exists (λ q, Param.kind q = VAR_KEYWORD) (parameters cf)) as Hex
    by (apply Exists_exists; eauto).
  split_and!.
  - unfold build_schema. rewrite process_params_func_kwargs.
    by rewrite decide_False.
  - intros unknown Hrun. apply tapify_ValueError_inv in Hrun as [_ Hko].
    rewrite build_schema_known_only in Hko.
    rewrite (bool_decide_eq_true_2 (Exists _ _)) in Hko by done.
    by rewrite orb_true_r in Hko.
  - unfold tapify, tapify_kwargs.
    rewrite !build_schema_known_only, !build_schema_has_kwargs.
    rewrite (bool_decide_eq_true_2 (Exists _ _)) by done.
    rewrite orb_true_r, !andb_false_r.
    replace (tap (build_schema parse cf ko eb (delete (Param.name p) fk)))
      with (tap (build_schema parse cf ko eb fk)); [done|].
    unfold build_schema. apply process_params_agree; [done|].
    intros n Hn. cbn [initial_state func_kwargs].
    rewrite lookup_delete_ne; [done|]. by intros <-.
Qed.

End FurtherRun.

(** [f(name, count=3)] has no [**kwargs]: the token [--verbose] left by a
    lenient parser is not passed on. *)
Lemma parsed_values_passed_through_witness :
  tapify_kwargs plain_parse (spec_parse_args []) f_name_count true
    (Some ["--name"; "abc"; "--verbose"]) false ∅
  = inr {[ "name" := PyStr "abc"; "count" := PyInt 3 ]}
  ∧ tapify plain_parse (spec_parse_args []) f_name_count true
      (Some ["--name"; "abc"; "--verbose"]) false ∅
    = inr (invoke f_name_count
             {[ "name" := PyStr "abc"; "count" := PyInt 3 ]}).
Proof.
  refine (parsed_values_passed_through plain_parse (spec_parse_args [])
            f_name_count true (Some ["--name"; "abc"; "--verbose"]) false ∅
            {| as_dict := {[ "name" := PyStr "abc"; "count" := PyInt 3 ]};
               extra_args := ["--verbose"] |} _ _ _).
  - left. vm_compute. reflexivity.
  - vm_compute. reflexivity.
  - left. by_decide.
Defined.

(** [f(name, count=3)] called without [--name]: the parser misses a
    required argument. *)
Lemma parser_exception_propagates_witness :
  tapify_kwargs plain_parse (spec_parse_args []) f_name_count false
    (Some []) false {[ "count" := PyInt 10 ]}
  = inl (ParserError (MissingRequired "--name"))
  ∧ tapify plain_parse (spec_parse_args []) f_name_count false
      (Some []) false {[ "count" := PyInt 10 ]}
    = inl (ParserError (MissingRequired "--name")).
Proof.
  apply (parser_exception_propagates plain_parse (spec_parse_args [])
           f_name_count false (Some []) false {[ "count" := PyInt 10 ]}
           (MissingRequired "--name")).
  - right. right. intros k [x Hx].
    apply lookup_singleton_Some in Hx as [<- _]. by_decide.
  - vm_compute. reflexivity.
Defined.

(** [f(name, count=3)] with the override [count=10]. *)
Lemma overrides_all_consumed_witness :
  func_kwargs (build_schema plain_parse f_name_count false false
                 {[ "count" := PyInt 10 ]}) = ∅.
Proof.
  apply (overrides_all_consumed plain_parse (spec_parse_args [])
           f_name_count false None false {[ "count" := PyInt 10 ]}).
  intros k [x Hx]. apply lookup_singleton_Some in Hx as [<- _]. by_decide.
Defined.

(** [g(x, **kwargs)] with the override [kwargs=1]. *)
Lemma var_keyword_name_override_witness :
  func_kwargs (build_schema plain_parse g_x_kwargs false false
                 {[ "kwargs" := PyInt 1 ]}) !! "kwargs" = Some (PyInt 1)
  ∧ (∀ unknown,
       tapify plain_parse (spec_parse_args []) g_x_kwargs false
         (Some ["--x"; "1"]) false {[ "kwargs" := PyInt 1 ]}
       ≠ inl (ValueError unknown))
  ∧ tapify plain_parse (spec_parse_args []) g_x_kwargs false
      (Some ["--x"; "1"]) false {[ "kwargs" := PyInt 1 ]}
    = tapify plain_parse (spec_parse_args []) g_x_kwargs false
        (Some ["--x"; "1"]) false (delete "kwargs" {[ "kwargs" := PyInt 1 ]}).
Proof.
  apply (var_keyword_name_override plain_parse (spec_parse_args [])
           g_x_kwargs false (Some ["--x"; "1"]) false
           {[ "kwargs" := PyInt 1 ]}
           (Param.mk "kwargs" VAR_KEYWORD None None) (PyInt 1)).
  - by_decide.
  - by_decide.
  - reflexivity.
  - reflexivity.
Defined.

(** ** The descriptions of the parameters *)

Lemma descriptions_fold_other ps (acc : gmap string (option string)) n :
  n ∉ arg_name <$> ps →
  foldl (λ acc prm, <[arg_name prm := description prm]> acc) acc ps !! n
  = acc !! n.
Proof.
  revert acc. induction ps as [|prm ps IH]; intros acc Hn; [done|].
  rewrite fmap_cons in Hn. apply not_elem_of_cons in Hn as [Hne Hn].
  cbn [foldl]. rewrite IH by done. by rewrite lookup_insert_ne.
Qed.

Lemma descriptions_fold_last before prm after
    (acc : gmap string (option string)) :
  arg_name prm ∉ arg_name <$> after →
  foldl (λ acc prm, <[arg_name prm := description prm]> acc) acc
    (before ++ prm :: after) !! arg_name prm
  = Some (description prm).
Proof.
  intros Hlast. rewrite foldl_app. cbn [foldl].
  rewrite descriptions_fold_other by done. apply lookup_insert_eq.
Qed.

Lemma param_descriptions_lookup d prm :
  NoDup (arg_name <$> params d) →
  prm ∈ params d →
  param_descriptions d !! arg_name prm = Some (description prm).
Proof.
  intros Hnd Hin. unfold param_descriptions.
  apply list_elem_of_split in Hin as (before & after & Hsplit).
  rewrite Hsplit in Hnd |- *. apply descriptions_fold_last.
  rewrite fmap_app, fmap_cons in Hnd.
  apply NoDup_app in Hnd as (_ & _ & Hnd). by apply NoDup_cons in Hnd as [? _].
Qed.

(** X12: a parameter documented more than once has the description that
    comes last in the documentation, and a name that is not documented has
    none. *)
Theorem param_descriptions_last_wins d :
  (∀ before prm after,
     params d = (before ++ prm :: after)%list →
     arg_name prm ∉ arg_name <$> after →
     param_descriptions d !! arg_name prm = Some (description prm))
  ∧ (∀ n, n ∉ arg_name <$> params d → param_descriptions d !! n = None).
Proof.
  unfold param_descriptions. split.
  - intros before prm after -> Hlast. by apply descriptions_fold_last.
  - intros n Hn. by rewrite descriptions_fold_other.
Qed.

(** X13: the descriptions are matched by name: when the documented names
    are distinct, the order of the documented parameters changes neither
    the descriptions nor, with the same short and long description, the
    state the loop ends in. *)
Theorem param_descriptions_order {R : Type} (parse parse' : option string → Docstring)
    (cf : Callable R) ko eb fk :
  NoDup (arg_name <$> params (parse (select_doc cf))) →
  params (parse (select_doc cf)) ≡ₚ params (parse' (select_doc cf)) →
  short_description (parse (select_doc cf))
  = short_description (parse' (select_doc cf)) →
  long_description (parse (select_doc cf))
  = long_description (parse' (select_doc cf)) →
  param_descriptions (parse (select_doc cf))
  = param_descriptions (parse' (select_doc cf))
  ∧ build_schema parse cf ko eb fk = build_schema parse' cf ko eb fk.
Proof.
  intros Hnd Hperm Hshort Hlong.
  assert (param_descriptions (parse (select_doc cf))
          = param_descriptions (parse' (select_doc cf))) as Hsame.
  { assert (NoDup (arg_name <$> params (parse' (select_doc cf)))) as Hnd'
      by by rewrite <- Hperm.
    apply map_eq. intros n.
    destruct (decide (n ∈ arg_name <$> params (parse (select_doc cf))))
      as [Hin|Hout].
    - apply list_elem_of_fmap in Hin as (prm & -> & Hin).
      rewrite !param_descriptions_lookup; try done. by rewrite <- Hperm.
    - unfold param_descriptions. rewrite !descriptions_fold_other; try done.
      by rewrite <- Hperm. }
  split; [done|].
  unfold build_schema, initial_state, describe.
  by rewrite Hsame, Hshort, Hlong.
Qed.

(** A parameter [n] documented twice. *)
Lemma param_descriptions_last_wins_witness :
  param_descriptions
    {| short_description := None; long_description := None;
       params := [{| arg_name := "n"; description := Some "first" |};
                  {| arg_name := "n"; description := Some "second" |}] |}
    !! "n" = Some (Some "second").
Proof.
  apply (proj1 (param_descriptions_last_wins
           {| short_description := None; long_description := None;
              params := [{| arg_name := "n"; description := Some "first" |};
                         {| arg_name := "n"; description := Some "second" |}] |})
           [{| arg_name := "n"; description := Some "first" |}]
           {| arg_name := "n"; description := Some "second" |} []).
  - reflexivity.
  - by_decide.
Defined.

(** The parameters of [f(name, count=3)] documented in either order. *)
Lemma param_descriptions_order_witness :
  build_schema
    (λ _, {| short_description := None; long_description := None;
             params := [{| arg_name := "name"; description := Some "Who." |};
                        {| arg_name := "count"; description := None |}] |})
    f_name_count false false ∅
  = build_schema
      (λ _, {| short_description := None; long_description := None;
               params := [{| arg_name := "count"; description := None |};
                          {| arg_name := "name"; description := Some "Who." |}] |})
      f_name_count false false ∅.
Proof.
  apply (param_descriptions_order
           (λ _, {| short_description := None; long_description := None;
                    params := [{| arg_name := "name"; description := Some "Who." |};
                               {| arg_name := "count"; description := None |}] |})
           (λ _, {| short_description := None; long_description := None;
                    params := [{| arg_name := "count"; description := None |};
                               {| arg_name := "name"; description := Some "Who." |}] |})
           f_name_count false false ∅).
  - by_decide.
  - apply Permutation_swap.
  - reflexivity.
  - reflexivity.
Defined.
